(** * HolE scoring and the self-adversarial loss of POEM

    A shallow embedding of [src/poem/models/unimodal/hole.py] (class
    [HolE]) and of the loss exercised by [tests/test_loss_functions.py].

    Tensors are nested lists of real numbers: floating-point values are
    idealised as elements of [R], so every equation below is exact.  The
    tensor library is modelled by what the calls of the source return
    ([torch.rfft], [torch.irfft], [*], [torch.sum], [nn.Embedding],
    [nn.init.uniform_]), errors included: a transform of a tensor without
    rows is rejected, and the inverse transform reads the first half of the
    spectrum it is given. *)

From Stdlib Require Import Reals Lra Lia List ZArith Bool Arith.
Import ListNotations.
Local Open Scope R_scope.

(** ** Exceptions as results *)

Inductive error : Type :=
| IndexError     (* an index outside of an embedding table *)
| RuntimeError.  (* a shape rejected by the tensor library *)

Definition result (A : Type) : Type := (error + A)%type.

Definition ok {A : Type} (a : A) : result A := inr a.
Definition raise {A : Type} (e : error) : result A := inl e.

Definition bind {A B : Type} (c : result A) (k : A -> result B) : result B :=
  match c with
  | inl e => inl e
  | inr a => k a
  end.

Notation "x <- c ;; k" := (bind c (fun x => k))
  (at level 61, c at next level, right associativity).

Fixpoint mapM {A B : Type} (f : A -> result B) (l : list A) : result (list B) :=
  match l with
  | [] => ok []
  | x :: l' => y <- f x ;; ys <- mapM f l' ;; ok (y :: ys)
  end.

(** ** Elementary list and sum operations *)

(** Elementwise combination of two tensors of the same shape. *)
Fixpoint map2 {A B C : Type} (f : A -> B -> C) (l1 : list A) (l2 : list B) : list C :=
  match l1, l2 with
  | x :: l1', y :: l2' => f x y :: map2 f l1' l2'
  | _, _ => []
  end.

(** [rsum f n] is [f 0 + ... + f (n-1)]. *)
Fixpoint rsum (f : nat -> R) (n : nat) : R :=
  match n with
  | O => 0
  | S n' => rsum f n' + f n'
  end.

(** ** The tensor library *)

Module torch.

(** [torch.rfft] returns a real tensor with one more, trailing axis of
    size two: index 0 holds the real part and index 1 the imaginary
    part of each frequency (the source addresses the latter as
    [a_fft[:, :, 1]]).  One entry along that axis is a pair. *)
Definition re_im : Type := (R * R)%type.

(** The angle 2*pi*k*n/d of the discrete Fourier transform of length d. *)
Definition theta (d k n : nat) : R := 2 * PI * INR (k * n) / INR d.

(** Transform of one row: X[k] = sum_n x[n] * exp(-2*pi*i*k*n/d), all d
    frequencies ([onesided=False]), not normalised. *)
Definition rfft_row (x : list R) : list re_im :=
  let d := length x in
  map (fun k =>
         (rsum (fun n => nth n x 0 * cos (theta d k n)) d,
          rsum (fun n => - (nth n x 0 * sin (theta d k n))) d))
      (seq 0 d).

(** [torch.rfft(x, signal_ndim=1, onesided=False)] on a (batch, d) tensor:
    the last axis is transformed, the result has shape (batch, d, 2).  The
    library does not plan a transform over a batch of size zero: a tensor
    without rows is rejected with a [RuntimeError]. *)
Definition rfft (x : list (list R)) : result (list (list re_im)) :=
  match x with
  | [] => raise RuntimeError
  | _ :: _ => ok (map rfft_row x)
  end.

(** The inverse discrete Fourier transform of one row, scaled by 1/d,
    real part kept: x[n] = 1/d * sum_k Re (X[k] * exp(+2*pi*i*k*n/d)).
    This is the IFFT of the mathematical definition; it reads all d
    frequencies.  The library call returns this value on a
    conjugate-symmetric spectrum only (see [irfft_row_onesided]). *)
Definition irfft_row (p : list re_im) : list R :=
  let d := length p in
  map (fun n =>
         rsum (fun k => fst (nth k p (0, 0)) * cos (theta d k n)
                        - snd (nth k p (0, 0)) * sin (theta d k n)) d
         / INR d)
      (seq 0 d).

(** What [torch.irfft(p, signal_ndim=1, onesided=False)] computes on one
    row: a complex-to-real transform, which reads the spectrum from its
    first half alone (frequencies 0 to d/2) and completes it by conjugate
    symmetry.  The frequencies above d/2 and the imaginary parts of
    frequency 0 and (d even) of frequency d/2 are not read.  On a
    conjugate-symmetric input this is the inverse transform [irfft_row]. *)
Definition irfft_row_onesided (p : list re_im) : list R :=
  let d := length p in
  map (fun n =>
         (fst (nth 0 p (0, 0))
          + 2 * rsum (fun i => fst (nth (S i) p (0, 0)) * cos (theta d (S i) n)
                               - snd (nth (S i) p (0, 0)) * sin (theta d (S i) n))
                     ((d - 1) / 2)
          + (if Nat.even d
             then fst (nth (d / 2) p (0, 0)) * cos (theta d (d / 2) n)
             else 0))
         / INR d)
      (seq 0 d).

(** [torch.irfft(p, signal_ndim=1, onesided=False, signal_sizes=(s,))] on
    a (batch, d, 2) tensor: with the full spectrum given, [signal_sizes]
    has to be the size d of the signal axis; as for [rfft], a tensor
    without rows is rejected. *)
Definition irfft (p : list (list re_im)) (signal_sizes : nat) : result (list (list R)) :=
  match p with
  | [] => raise RuntimeError
  | _ :: _ =>
      mapM (fun p_i => if length p_i =? signal_sizes then ok (irfft_row_onesided p_i)
                       else raise RuntimeError) p
  end.

(** [x[..., 1] *= -1] at one entry of the trailing axis. *)
Definition neg_imag (z : re_im) : re_im := (fst z, snd z * -1).

(** [a * b] at one entry of the trailing axis: the operator [*] of two
    real tensors multiplies entry by entry, so index 0 meets index 0 and
    index 1 meets index 1. *)
Definition mul_re_im (a b : re_im) : re_im := (fst a * fst b, snd a * snd b).

(** [a * b] for two (d, 2) tensors. *)
Definition mul_row (a b : list re_im) : list re_im := map2 mul_re_im a b.

(** [torch.sum(x, dim=-1)] of one row. *)
Definition sum (x : list R) : R := fold_right Rplus 0 x.

(** [torch.mean] of a one-dimensional tensor. *)
Definition mean (x : list R) : R := sum x / INR (length x).

End torch.

(** ** Random draws *)

(** One draw of the uniform distribution on [0, 1). *)
Record unit_sample : Type := {
  sample : R;
  sample_range : 0 <= sample < 1
}.

(** The state of the random generator: the draws it is going to deliver
    (position k holds the k-th uniform and the k-th standard normal draw)
    and the position of the next one.  Seeding fixes the two streams. *)
Record Generator : Type := {
  uniform_at : nat -> unit_sample;
  normal_at : nat -> R;
  position : nat
}.

Definition advance (g : Generator) : Generator :=
  {| uniform_at := uniform_at g; normal_at := normal_at g; position := S (position g) |}.

Definition draw_uniform (g : Generator) : R * Generator :=
  (sample (uniform_at g (position g)), advance g).

Definition draw_normal (g : Generator) : R * Generator :=
  (normal_at g (position g), advance g).

(** Overwrite every entry of a row (of a table) by a fresh draw. *)
Fixpoint fill_row (draw : Generator -> R * Generator) (row : list R) (g : Generator)
  : list R * Generator :=
  match row with
  | [] => ([], g)
  | _ :: row' =>
      let (v, g1) := draw g in
      let (vs, g2) := fill_row draw row' g1 in
      (v :: vs, g2)
  end.

Fixpoint fill (draw : Generator -> R * Generator) (w : list (list R)) (g : Generator)
  : list (list R) * Generator :=
  match w with
  | [] => ([], g)
  | row :: w' =>
      let (r, g1) := fill_row draw row g in
      let (rs, g2) := fill draw w' g1 in
      (r :: rs, g2)
  end.

(** ** Embedding tables *)

Module nn.

(** [nn.Embedding]: a table of [num_embeddings] rows of [embedding_dim]
    real numbers. *)
Record Embedding : Type := {
  num_embeddings : nat;
  embedding_dim : nat;
  weight : list (list R)
}.

(** [nn.Embedding(num_embeddings, embedding_dim)]: a new table, which the
    constructor fills with standard normal draws. *)
Definition Embedding_new (n d : nat) (g : Generator) : Embedding * Generator :=
  let (w, g') := fill draw_normal (repeat (repeat 0 d) n) g in
  ({| num_embeddings := n; embedding_dim := d; weight := w |}, g').

(** Lookup of one index; an index outside of the table is an error. *)
Definition lookup (E : Embedding) (i : Z) : result (list R) :=
  if (0 <=? i)%Z then
    match nth_error (weight E) (Z.to_nat i) with
    | Some row => ok row
    | None => raise IndexError
    end
  else raise IndexError.

(** The call [E(indices)]: gathers one row per index. *)
Definition forward (E : Embedding) (indices : list Z) : result (list (list R)) :=
  mapM (lookup E) indices.

Definition set_weight (E : Embedding) (w : list (list R)) : Embedding :=
  {| num_embeddings := num_embeddings E; embedding_dim := embedding_dim E; weight := w |}.

Module init.

(** [nn.init.uniform_(tensor, a, b)]: every entry is replaced by a draw
    of the uniform distribution on [a, b). *)
Definition uniform_ (w : list (list R)) (a b : R) (g : Generator)
  : list (list R) * Generator :=
  fill (fun g0 => let (u, g1) := draw_uniform g0 in (a + (b - a) * u, g1)) w g.

End init.

End nn.

(** ** Criteria *)

Inductive reduction : Type := Mean | Sum | NoReduction.

(** The losses a model can be built with. *)
Inductive Loss : Type :=
| MarginRankingLoss (margin : R) (red : reduction)
| NegativeSamplingSelfAdversarialLoss (margin adversarial_temperature : R).

(** ** The model *)

(** Modelled from the spec: [TriplesFactory] is defined in
    [poem.instance_creation_factories], a module that is not embedded
    here; the model reads the number of entities and of relations from it
    (they are derived from the dataset). *)
Record TriplesFactory : Type := {
  num_entities : nat;
  num_relations : nat
}.

(** The attributes of a constructed [HolE].  Modelled from the spec:
    [BaseModule.__init__] belongs to a module that is not embedded here;
    it keeps the
    triples factory, the criterion, the embedding dimension and the entity
    table it is given. *)
Record HolE : Type := {
  triples_factory : TriplesFactory;
  criterion : Loss;
  embedding_dim : nat;
  entity_embeddings : nn.Embedding;
  relation_embeddings : nn.Embedding
}.

(** The class attribute [entity_embedding_max_norm = 1]. *)
Definition entity_embedding_max_norm : R := 1.

(** [HolE._init_embeddings]: both tables are created anew and filled
    uniformly within plus or minus 6 / sqrt(rows + dim). *)
Definition _init_embeddings (tf : TriplesFactory) (dim : nat) (g : Generator)
  : nn.Embedding * nn.Embedding * Generator :=
  let (entity, g1) := nn.Embedding_new (num_entities tf) dim g in
  let (relation, g2) := nn.Embedding_new (num_relations tf) dim g1 in
  let entity_embeddings_init_bound :=
    6 / sqrt (INR (nn.num_embeddings entity + nn.embedding_dim entity)) in
  let (we, g3) :=
    nn.init.uniform_ (nn.weight entity)
      (- entity_embeddings_init_bound) entity_embeddings_init_bound g2 in
  let relation_embeddings_init_bound :=
    6 / sqrt (INR (nn.num_embeddings relation + nn.embedding_dim relation)) in
  let (wr, g4) :=
    nn.init.uniform_ (nn.weight relation)
      (- relation_embeddings_init_bound) relation_embeddings_init_bound g3 in
  (nn.set_weight entity we, nn.set_weight relation wr, g4).

(** [HolE.__init__].  The test [None in [entity, relation]] holds as soon
    as one of the two tables is missing, and [_init_embeddings] then
    assigns both attributes. *)
Definition __init__ (tf : TriplesFactory)
    (entity_embeddings relation_embeddings : option nn.Embedding)
    (dim : nat) (criterion : option Loss) (g : Generator) : HolE * Generator :=
  let criterion :=
    match criterion with
    | None => MarginRankingLoss 1 Mean
    | Some c => c
    end in
  match entity_embeddings, relation_embeddings with
  | Some entity, Some relation =>
      ({| triples_factory := tf; criterion := criterion; embedding_dim := dim;
          entity_embeddings := entity; relation_embeddings := relation |}, g)
  | _, _ =>
      let '(entity, relation, g') := _init_embeddings tf dim g in
      ({| triples_factory := tf; criterion := criterion; embedding_dim := dim;
          entity_embeddings := entity; relation_embeddings := relation |}, g')
  end.

(** The spectrum of the composite vector of one (head, tail) pair as the
    three forward passes compute it: transform both rows, negate the
    imaginary part of the first transform, multiply the two tensors.  The
    inverse transform is then applied to this spectrum. *)
Definition composite_spectrum (h t : list R) : list torch.re_im :=
  torch.mul_row (map torch.neg_imag (torch.rfft_row h)) (torch.rfft_row t).

(** [HolE.forward_owa]: one score per (head, relation, tail) row, as a
    (batch, 1) tensor.  The three lookups come first, then the two forward
    transforms, each of which rejects a tensor without rows. *)
Definition forward_owa (self : HolE) (batch : list (Z * Z * Z)) : result (list (list R)) :=
  h <- nn.forward (entity_embeddings self) (map (fun x => fst (fst x)) batch) ;;
  r <- nn.forward (relation_embeddings self) (map (fun x => snd (fst x)) batch) ;;
  t <- nn.forward (entity_embeddings self) (map (fun x => snd x) batch) ;;
  a_fft <- torch.rfft h ;;
  b_fft <- torch.rfft t ;;
  (* a_fft[:, :, 1] *= -1 *)
  let a_fft := map (map torch.neg_imag) a_fft in
  (* p_fft = a_fft * b_fft, two (batch, d, 2) tensors *)
  let p_fft := map2 torch.mul_row a_fft b_fft in
  (* signal_sizes=h.shape[1:], the dimension of the gathered rows *)
  composite <- torch.irfft p_fft (nn.embedding_dim (entity_embeddings self)) ;;
  (* torch.sum(r * composite, dim=-1, keepdim=True) *)
  let scores := map2 (fun r_i c_i => [torch.sum (map2 Rmult r_i c_i)]) r composite in
  ok scores.

(** [HolE.forward_cwa]: every entity as tail, a (batch, num_entities)
    tensor. *)
Definition forward_cwa (self : HolE) (batch : list (Z * Z)) : result (list (list R)) :=
  h <- nn.forward (entity_embeddings self) (map fst batch) ;;
  r <- nn.forward (relation_embeddings self) (map snd batch) ;;
  let t := nn.weight (entity_embeddings self) in
  h_fft <- torch.rfft h ;;
  t_fft <- torch.rfft t ;;
  (* h_fft[:, :, 1] *= -1 *)
  let h_fft := map (map torch.neg_imag) h_fft in
  (* p_fft = h_fft[:, None, :, :] * t_fft[None, :, :, :], broadcast to
     (batch, num_entities, d, 2) *)
  let p_fft := map (fun h_i => map (fun t_j => torch.mul_row h_i t_j) t_fft) h_fft in
  (* signal_sizes=(self.embedding_dim,) *)
  composite <- mapM (fun p_i => torch.irfft p_i (embedding_dim self)) p_fft ;;
  (* torch.sum(r[:, None, :] * composite, dim=-1) *)
  let scores :=
    map2 (fun r_i c_i => map (fun c_ij => torch.sum (map2 Rmult r_i c_ij)) c_i)
         r composite in
  ok scores.

(** [HolE.forward_inverse_cwa]: every entity as head, a
    (batch, num_entities) tensor. *)
Definition forward_inverse_cwa (self : HolE) (batch : list (Z * Z)) : result (list (list R)) :=
  let h := nn.weight (entity_embeddings self) in
  r <- nn.forward (relation_embeddings self) (map fst batch) ;;
  t <- nn.forward (entity_embeddings self) (map snd batch) ;;
  h_fft <- torch.rfft h ;;
  t_fft <- torch.rfft t ;;
  (* h_fft[:, :, 1] *= -1: the transform of the whole table *)
  let h_fft := map (map torch.neg_imag) h_fft in
  (* p_fft = h_fft[None, :, :, :] * t_fft[:, None, :, :], broadcast to
     (batch, num_entities, d, 2) *)
  let p_fft := map (fun t_i => map (fun h_j => torch.mul_row h_j t_i) h_fft) t_fft in
  (* signal_sizes=(self.embedding_dim,) *)
  composite <- mapM (fun p_i => torch.irfft p_i (embedding_dim self)) p_fft ;;
  (* torch.sum(r[:, None, :] * composite, dim=-1) *)
  let scores :=
    map2 (fun r_i c_i => map (fun c_ij => torch.sum (map2 Rmult r_i c_ij)) c_i)
         r composite in
  ok scores.

(** ** Circular correlation, in the words of the specification *)

(** The direct definition: the k-th element of the correlation of two
    vectors of length d is the sum over i of a_i * b_((i+k) mod d). *)
Definition circular_correlation (a b : list R) : list R :=
  let d := length a in
  map (fun k => rsum (fun i => nth i a 0 * nth ((i + k) mod d) b 0) d) (seq 0 d).

(** Complex conjugate and complex product of two frequencies. *)
Definition conjugate (z : torch.re_im) : torch.re_im := (fst z, - snd z).

Definition cmul (a b : torch.re_im) : torch.re_im :=
  (fst a * fst b - snd a * snd b, fst a * snd b + snd a * fst b).

(** The Hadamard product of two spectra: frequency by frequency, the
    product of two complex numbers. *)
Definition hadamard (a b : list torch.re_im) : list torch.re_im := map2 cmul a b.

(** The composite vector the specification describes:
    IFFT (conj (FFT head) (.) FFT tail). *)
Definition spectral_correlation (h t : list R) : list R :=
  torch.irfft_row (hadamard (map conjugate (torch.rfft_row h)) (torch.rfft_row t)).

(** The score the specification describes: the dot product of the
    relation row with that composite vector. *)
Definition spectral_score (h r t : list R) : R :=
  torch.sum (map2 Rmult r (spectral_correlation h t)).

(** A spectrum is conjugate symmetric when X[d-k] is the conjugate of
    X[k], as the transform of a real signal is. *)
Definition conjugate_symmetric (p : list torch.re_im) : Prop :=
  let d := length p in
  forall k : nat, (k < d)%nat ->
    nth ((d - k) mod d) p (0, 0) = conjugate (nth k p (0, 0)).

(** ** The post-update hook *)

(** The Euclidean norm of one row. *)
Definition norm (x : list R) : R := sqrt (torch.sum (map (fun v => v * v) x)).

(** Modelled from the spec: the hook that runs after an update of the
    embeddings belongs to code that is not embedded here ([HolE] only declares
    [entity_embedding_max_norm]).  It clips each entity row to the
    maximal Euclidean norm: a longer row is rescaled down onto the bound,
    any other row is kept; no row is rejected. *)
Definition clip_row (max_norm : R) (x : list R) : list R :=
  if Rle_dec (norm x) max_norm then x
  else map (fun v => v * (max_norm / norm x)) x.

(** Modelled from the spec: the hook clips every entity row to the
    maximal norm the class declares and leaves the relation table alone. *)
Definition post_update_hook (self : HolE) : HolE :=
  {| triples_factory := triples_factory self;
     criterion := criterion self;
     embedding_dim := embedding_dim self;
     entity_embeddings :=
       nn.set_weight (entity_embeddings self)
         (map (clip_row entity_embedding_max_norm) (nn.weight (entity_embeddings self)));
     relation_embeddings := relation_embeddings self |}.

(** Modelled from the spec: one update of the embeddings.  The optimizer,
    which is not embedded here, writes new values into both tables
    (any values: it is external), and the hook runs afterwards. *)
Definition update (self : HolE) (entity_weight relation_weight : list (list R)) : HolE :=
  post_update_hook
    {| triples_factory := triples_factory self;
       criterion := criterion self;
       embedding_dim := embedding_dim self;
       entity_embeddings := nn.set_weight (entity_embeddings self) entity_weight;
       relation_embeddings := nn.set_weight (relation_embeddings self) relation_weight |}.

(** ** The self-adversarial negative-sampling loss *)

Module loss_functions.

(** Modelled from the spec: the logistic function and its logarithm. *)
Definition sigmoid (x : R) : R := 1 / (1 + exp (- x)).

Definition logsigmoid (x : R) : R := ln (sigmoid x).

(** Modelled from the spec: the weights of one group of negative scores,
    weight_j = exp (temperature * score_j) / sum_k exp (temperature * score_k). *)
Definition softmax (temperature : R) (scores : list R) : list R :=
  let z := torch.sum (map (fun s => exp (temperature * s)) scores) in
  map (fun s => exp (temperature * s) / z) scores.

Definition same_length (n : nat) (groups : list (list R)) : bool :=
  forallb (fun grp => length grp =? n) groups.

(** Modelled from the spec: the shapes that fit.  The negative scores come
    as the groups the softmax runs over: the rows of a (batch, N) tensor,
    or the one row of a flat tensor (as in the test of the repository).  They
    fit the positive scores when the groups have one size and there is
    one group per positive score, or one flat group with one negative
    score per positive score. *)
Definition compatible (pos_scores : list R) (neg_scores : list (list R)) : bool :=
  match neg_scores with
  | [] => false
  | grp :: _ =>
      same_length (length grp) neg_scores
      && ((length neg_scores =? length pos_scores)
          || ((length neg_scores =? 1) && (length grp =? length pos_scores)))
  end.

(** Modelled from the spec: the class
    [NegativeSamplingSelfAdversarialLoss] is defined in
    [poem.loss_functions], a module that is not embedded here; only its test
    is.  The model follows the four steps of the specification
    (softmax weights per group, weighted log-sigmoid of the negatives
    averaged per group, log-sigmoid of the positives averaged, the
    negated sum of the two means halved) and a shape error for scores
    that do not fit.  The arguments of the two log-sigmoids are the ones
    the test of the repository documents (lines 26 to 36): distances
    are negated scores, the negatives enter as
    [neg_distances - margin] and the positives as
    [margin - pos_distances]. *)
Definition forward (margin adversarial_temperature : R)
    (pos_scores : list R) (neg_scores : list (list R)) : result R :=
  if compatible pos_scores neg_scores then
    let neg_score_weights := map (softmax adversarial_temperature) neg_scores in
    let neg_distances := map (map Ropp) neg_scores in
    let weighted_neg_scores :=
      map2 (map2 (fun w dist => w * logsigmoid (dist - margin)))
           neg_score_weights neg_distances in
    let neg_loss := torch.mean (map torch.mean weighted_neg_scores) in
    let pos_distances := map Ropp pos_scores in
    let pos_loss :=
      torch.mean (map (fun dist => logsigmoid (margin - dist)) pos_distances) in
    ok (- (pos_loss + neg_loss) / 2)
  else raise RuntimeError.

(** The formula as the specification words it: the positives enter as
    [margin - pos_score], the negatives as [neg_score - margin], the
    negative mean runs over all negative scores. *)
Definition specified_loss (margin adversarial_temperature : R)
    (pos_scores : list R) (neg_scores : list (list R)) : R :=
  let weights := map (softmax adversarial_temperature) neg_scores in
  let weighted :=
    map2 (map2 (fun w s => w * logsigmoid (s - margin))) weights neg_scores in
  - (torch.mean (map (fun s => logsigmoid (margin - s)) pos_scores)
     + torch.mean (concat weighted)) / 2.

End loss_functions.

(** The test [test_negative_sampling_self_adversarial_loss] of the
    repository: its input and the value it computes by hand. *)
Module test_loss_functions.

Definition margin : R := 1.
Definition adversarial_temperature : R := 1.

Definition pos_scores : list R := [0; 0; -0.5; -0.5].
Definition neg_scores : list R := [0; 0; -1; -1].

Definition weights : list R := [0.37; 0.37; 0.13; 0.13].

Definition neg_log_sigmoids : list R := [-1.31; -1.31; -0.69; -0.69].
Definition intermediate : list R := map2 Rmult weights neg_log_sigmoids.
Definition neg_loss : R := torch.mean intermediate.

Definition pos_log_sigmoids : list R := [-0.31; -0.31; -0.48; -0.48].
Definition pos_loss : R := torch.mean pos_log_sigmoids.

Definition expected_loss : R := (- pos_loss - neg_loss) / 2.

(** [assertAlmostEqual(first, second, delta=delta)]. *)
Definition assertAlmostEqual (first second delta : R) : Prop :=
  Rabs (first - second) <= delta.

End test_loss_functions.

(** ** A model of dimension four *)

(** Two entities, e_0 = (1, 0, 0, 0) and e_1 = (0, 1, 0, 0), and one
    relation, r_0 = (0, 1, 0, 0). *)
Definition unit_rows : HolE :=
  {| triples_factory := {| num_entities := 2; num_relations := 1 |};
     criterion := MarginRankingLoss 1 Mean;
     embedding_dim := 4;
     entity_embeddings :=
       {| nn.num_embeddings := 2; nn.embedding_dim := 4;
          nn.weight := [[1; 0; 0; 0]; [0; 1; 0; 0]] |};
     relation_embeddings :=
       {| nn.num_embeddings := 1; nn.embedding_dim := 4;
          nn.weight := [[0; 1; 0; 0]] |} |}.

(** A well-formed table has the shape it declares. *)
Definition wf_embedding (E : nn.Embedding) : Prop :=
  length (nn.weight E) = nn.num_embeddings E
  /\ Forall (fun row => length row = nn.embedding_dim E) (nn.weight E).

(** A well-formed model: both tables are well formed and have the
    dimension of the model. *)
Definition wf_model (self : HolE) : Prop :=
  wf_embedding (entity_embeddings self)
  /\ wf_embedding (relation_embeddings self)
  /\ nn.embedding_dim (entity_embeddings self) = embedding_dim self
  /\ nn.embedding_dim (relation_embeddings self) = embedding_dim self.

(** ** Rows, valid indices and the score of one triple *)

(** Row i of a table. *)
Definition row (E : nn.Embedding) (i : Z) : list R := nth (Z.to_nat i) (nn.weight E) [].

Definition valid_index (E : nn.Embedding) (i : Z) : Prop :=
  (0 <= i < Z.of_nat (nn.num_embeddings E))%Z.

Definition valid_triple (self : HolE) (x : Z * Z * Z) : Prop :=
  valid_index (entity_embeddings self) (fst (fst x))
  /\ valid_index (relation_embeddings self) (snd (fst x))
  /\ valid_index (entity_embeddings self) (snd x).

Definition valid_head_relation (self : HolE) (x : Z * Z) : Prop :=
  valid_index (entity_embeddings self) (fst x)
  /\ valid_index (relation_embeddings self) (snd x).

Definition valid_relation_tail (self : HolE) (x : Z * Z) : Prop :=
  valid_index (relation_embeddings self) (fst x)
  /\ valid_index (entity_embeddings self) (snd x).

(** The score the forward passes give to a head row, a relation row and
    a tail row. *)
Definition score_row (h r t : list R) : R :=
  torch.sum (map2 Rmult r (torch.irfft_row_onesided (composite_spectrum h t))).

(** A table of n rows of d values within plus or minus b. *)
Definition in_bound (n d : nat) (b : R) (E : nn.Embedding) : Prop :=
  length (nn.weight E) = n
  /\ Forall (fun row => length row = d /\ Forall (fun v => - b <= v <= b) row)
            (nn.weight E).

(** ** A construction with one table supplied *)

Definition one_of_each : TriplesFactory := {| num_entities := 1; num_relations := 1 |}.

Definition supplied_entities : nn.Embedding :=
  {| nn.num_embeddings := 1; nn.embedding_dim := 1; nn.weight := [[100]] |}.

Definition supplied_relations : nn.Embedding :=
  {| nn.num_embeddings := 1; nn.embedding_dim := 1; nn.weight := [[100]] |}.

(** A generator all of whose draws are 0. *)
Definition zero_draws : Generator :=
  {| uniform_at := fun _ => {| sample := 0; sample_range := conj (Rle_refl 0) Rlt_0_1 |};
     normal_at := fun _ => 0;
     position := 0 |}.

(** ** Sines and cosines of the quarter turns *)

Definition quarter_cos (m : nat) : R :=
  match m with
  | O => 1
  | 1%nat => 0
  | 2%nat => -1
  | _ => 0
  end.

Definition quarter_sin (m : nat) : R :=
  match m with
  | O => 0
  | 1%nat => 1
  | 2%nat => 0
  | _ => -1
  end.

(** ** Partial sums of the exponential series *)

(** The term x^k / k!, by its recurrence. *)
Fixpoint exp_term (x : R) (k : nat) : R :=
  match k with
  | O => 1
  | S k' => exp_term x k' * x / INR (S k')
  end.

Definition exp_sum (x : R) (N : nat) : R := sum_f_R0 (exp_term x) N.

Definition exp_poly8 (x : R) : R :=
  1 + x + x ^ 2 / 2 + x ^ 3 / 6 + x ^ 4 / 24 + x ^ 5 / 120 + x ^ 6 / 720
  + x ^ 7 / 5040 + x ^ 8 / 40320.

Definition exp_poly9 (x : R) : R := exp_poly8 x + x ^ 9 / 362880.

(** ** The values met at the input of the test *)

Definition softplus (x : R) : R := ln (1 + exp x).

Definition exp_m1 : R := exp (- (1)).
Definition exp_mhalf : R := exp (- (1 / 2)).
Definition softplus_m1 : R := softplus (- (1)).
Definition softplus_mhalf : R := softplus (- (1 / 2)).
Definition softplus_m32 : R := softplus (- (3 / 2)).
Definition softplus_m2 : R := softplus (- (2)).

(** One group of weighted negative terms, negatives entering as
    [- score - margin]. *)
Definition weighted_group (margin temperature : R) (grp : list R) : list R :=
  map2 (fun w s => w * loss_functions.logsigmoid (- s - margin))
       (loss_functions.softmax temperature grp) grp.

(** The value of the model of the loss at the input of the test. *)
Definition model_value : R :=
  (2 * softplus_m1 + 2 * softplus_mhalf
   + (2 * (1 + softplus_m1) + 2 * exp_m1 * ln 2) / (2 + 2 * exp_m1)) / 8.

(** The value of the formula of the specification at the same input. *)
Definition specified_value : R :=
  (2 * softplus_m1 + 2 * softplus_m32
   + (2 * (1 + softplus_m1) + 2 * exp_m1 * (2 + softplus_m2)) / (2 + 2 * exp_m1)) / 8.

(** ** Swapped batches, ranges and dimensions *)

(** A triple with its head and its tail exchanged; a pair with its two
    columns exchanged. *)
Definition swap_head_tail (x : Z * Z * Z) : Z * Z * Z := (snd x, snd (fst x), fst (fst x)).

Definition swap_pair (x : Z * Z) : Z * Z := (snd x, fst x).

(** Indices below the counts of the dataset. *)
Definition in_range_triple (tf : TriplesFactory) (x : Z * Z * Z) : Prop :=
  (0 <= fst (fst x) < Z.of_nat (num_entities tf))%Z
  /\ (0 <= snd (fst x) < Z.of_nat (num_relations tf))%Z
  /\ (0 <= snd x < Z.of_nat (num_entities tf))%Z.

(** The tables are well formed and of one dimension (which need not be
    the [embedding_dim] of the model). *)
Definition wf_tables (self : HolE) : Prop :=
  wf_embedding (entity_embeddings self)
  /\ wf_embedding (relation_embeddings self)
  /\ nn.embedding_dim (relation_embeddings self) = nn.embedding_dim (entity_embeddings self).

(** The model with its [embedding_dim] set to the dimension of its entity
    table. *)
Definition with_table_dim (self : HolE) : HolE :=
  {| triples_factory := triples_factory self;
     criterion := criterion self;
     embedding_dim := nn.embedding_dim (entity_embeddings self);
     entity_embeddings := entity_embeddings self;
     relation_embeddings := relation_embeddings self |}.

(** The tables of [unit_rows], of dimension four, under the default
    [embedding_dim = 200] of the constructor. *)
Definition unit_rows_200 : HolE :=
  {| triples_factory := triples_factory unit_rows;
     criterion := criterion unit_rows;
     embedding_dim := 200;
     entity_embeddings := entity_embeddings unit_rows;
     relation_embeddings := relation_embeddings unit_rows |}.

(** * Properties *)

(** ** Lists and results *)

Lemma mapM_ok {A B : Type} (f : A -> result B) (g : A -> B) (l : list A) :
  (forall x, In x l -> f x = ok (g x)) -> mapM f l = ok (map g l).
Proof.
  induction l as [|x l IH]; intros H; simpl.
  - reflexivity.
  - rewrite (H x (or_introl eq_refl)). simpl.
    rewrite IH by (intros y Hy; apply H; now right). reflexivity.
Qed.

Lemma map2_map {A B C D : Type} (f : B -> C -> D) (g : A -> B) (h : A -> C) (l : list A) :
  map2 f (map g l) (map h l) = map (fun x => f (g x) (h x)) l.
Proof. induction l as [|x l IH]; simpl; [reflexivity | now rewrite IH]. Qed.

Lemma map2_map_r {A B B' C : Type} (f : A -> B -> C) (g : B' -> B)
    (l1 : list A) (l2 : list B') :
  map2 f l1 (map g l2) = map2 (fun a b => f a (g b)) l1 l2.
Proof.
  revert l2; induction l1 as [|x l1 IH]; intros [|y l2]; simpl; try reflexivity.
  now rewrite IH.
Qed.

Lemma map2_length {A B C : Type} (f : A -> B -> C) (l1 : list A) (l2 : list B) :
  length (map2 f l1 l2) = Nat.min (length l1) (length l2).
Proof.
  revert l2; induction l1 as [|x l1 IH]; intros [|y l2]; simpl; try reflexivity.
  now rewrite IH.
Qed.

Lemma Forall2_repeat_r {A B : Type} (Q : A -> B -> Prop) (l : list A) (y : B) (n : nat) :
  Forall2 Q l (repeat y n) -> length l = n /\ Forall (fun x => Q x y) l.
Proof.
  revert l; induction n as [|n IH]; intros l H; simpl in H; inversion H; subst.
  - split; [reflexivity | constructor].
  - destruct (IH _ H4) as [Hl HF]. split; [simpl; now rewrite Hl | now constructor].
Qed.

(** Decompose an equation between two lists of numbers or of pairs into
    its entries. *)
Ltac entrywise :=
  repeat match goal with
         | |- _ :: _ = _ :: _ => apply (f_equal2 cons)
         | |- (_, _) = (_, _) => apply (f_equal2 pair)
         | |- @nil _ = @nil _ => reflexivity
         end.

(** ** Random fills *)

Section Fill.

Variable draw : Generator -> R * Generator.
Variable P : R -> Prop.
Hypothesis draw_P : forall g, P (fst (draw g)).

Lemma fill_row_spec (row : list R) (g : Generator) :
  length (fst (fill_row draw row g)) = length row
  /\ Forall P (fst (fill_row draw row g)).
Proof.
  revert g; induction row as [|x row IH]; intros g; simpl.
  - split; [reflexivity | constructor].
  - specialize (draw_P g). destruct (draw g) as [v g1]; simpl in draw_P.
    specialize (IH g1). destruct (fill_row draw row g1) as [vs g2]; simpl in *.
    destruct IH as [IHl IHP]. split; [now rewrite IHl | now constructor].
Qed.

Lemma fill_spec (w : list (list R)) (g : Generator) :
  Forall2 (fun new old => length new = length old /\ Forall P new)
          (fst (fill draw w g)) w.
Proof.
  revert g; induction w as [|row w IH]; intros g; simpl.
  - constructor.
  - pose proof (fill_row_spec row g) as Hrow.
    destruct (fill_row draw row g) as [r g1]; simpl in Hrow.
    specialize (IH g1). destruct (fill draw w g1) as [rs g2]; simpl in *.
    constructor; assumption.
Qed.

End Fill.

Lemma Forall2_Forall_shape (P : R -> Prop) (new old : list (list R)) (n d : nat) :
  Forall2 (fun a b => length a = length b /\ Forall P a) new old ->
  length old = n -> Forall (fun row => length row = d) old ->
  length new = n /\ Forall (fun row => length row = d /\ Forall P row) new.
Proof.
  intros H; revert n; induction H as [|a b new old [Hab HP] H IH]; intros n Hn Hd.
  - split; [exact Hn | constructor].
  - inversion Hd; subst. destruct (IH _ eq_refl H3) as [Hl HF].
    split; [simpl; now rewrite Hl|]. constructor; [|exact HF].
    split; [congruence | exact HP].
Qed.

Lemma Embedding_new_shape (n d : nat) (g : Generator) :
  length (nn.weight (fst (nn.Embedding_new n d g))) = n
  /\ Forall (fun row => length row = d) (nn.weight (fst (nn.Embedding_new n d g)))
  /\ nn.num_embeddings (fst (nn.Embedding_new n d g)) = n
  /\ nn.embedding_dim (fst (nn.Embedding_new n d g)) = d.
Proof.
  unfold nn.Embedding_new.
  pose proof (fill_spec draw_normal (fun _ => True) (fun _ => I)
                (repeat (repeat 0 d) n) g) as H.
  destruct (fill draw_normal (repeat (repeat 0 d) n) g) as [w g']; simpl in *.
  apply Forall2_repeat_r in H. destruct H as [Hl HF].
  repeat split; try assumption.
  eapply Forall_impl; [|exact HF]. intros row [Hr _]. now rewrite Hr, repeat_length.
Qed.

(** ** Initialization *)

Lemma init_bound_nonneg (x : R) : 0 <= 6 / sqrt x.
Proof.
  destruct (Req_dec (sqrt x) 0) as [H0|Hn].
  - rewrite H0. unfold Rdiv. rewrite Rinv_0. lra.
  - apply Rmult_le_pos; [lra|]. apply Rlt_le, Rinv_0_lt_compat.
    pose proof (sqrt_pos x). lra.
Qed.

Lemma uniform_draw_range (b : R) (g : Generator) :
  0 <= b ->
  - b <= fst (let (u, g1) := draw_uniform g in (- b + (b - - b) * u, g1)) <= b.
Proof.
  intros Hb. unfold draw_uniform; simpl.
  pose proof (sample_range (uniform_at g (position g))) as Hu. nra.
Qed.

Lemma uniform__spec (w : list (list R)) (b : R) (g : Generator) (n d : nat) :
  0 <= b -> length w = n -> Forall (fun row => length row = d) w ->
  length (fst (nn.init.uniform_ w (- b) b g)) = n
  /\ Forall (fun row => length row = d /\ Forall (fun v => - b <= v <= b) row)
            (fst (nn.init.uniform_ w (- b) b g)).
Proof.
  intros Hb Hn Hd. unfold nn.init.uniform_.
  eapply Forall2_Forall_shape; [|exact Hn|exact Hd].
  apply fill_spec. intros g0. now apply uniform_draw_range.
Qed.

Lemma _init_embeddings_spec (tf : TriplesFactory) (dim : nat) (g : Generator) :
  in_bound (num_entities tf) dim (6 / sqrt (INR (num_entities tf + dim)))
           (fst (fst (_init_embeddings tf dim g)))
  /\ in_bound (num_relations tf) dim (6 / sqrt (INR (num_relations tf + dim)))
              (snd (fst (_init_embeddings tf dim g))).
Proof.
  unfold _init_embeddings.
  pose proof (Embedding_new_shape (num_entities tf) dim g) as He.
  destruct (nn.Embedding_new (num_entities tf) dim g) as [entity g1]; simpl in He.
  pose proof (Embedding_new_shape (num_relations tf) dim g1) as Hr.
  destruct (nn.Embedding_new (num_relations tf) dim g1) as [relation g2]; simpl in Hr.
  destruct He as (He1 & He2 & He3 & He4). destruct Hr as (Hr1 & Hr2 & Hr3 & Hr4).
  rewrite He3, He4, Hr3, Hr4.
  pose proof (uniform__spec (nn.weight entity) _ g2 _ _
                (init_bound_nonneg (INR (num_entities tf + dim))) He1 He2) as Ue.
  destruct (nn.init.uniform_ (nn.weight entity) _ _ g2) as [we g3]; simpl in Ue.
  pose proof (uniform__spec (nn.weight relation) _ g3 _ _
                (init_bound_nonneg (INR (num_relations tf + dim))) Hr1 Hr2) as Ur.
  destruct (nn.init.uniform_ (nn.weight relation) _ _ g3) as [wr g4]; simpl in Ur.
  simpl. split; assumption.
Qed.

(** C6: after the default initialization (no table supplied), the entity
    table has [num_entities] rows of [dim] values, all within plus or minus
    6 / sqrt (num_entities + dim), and the relation table has
    [num_relations] rows of [dim] values, all within plus or minus
    6 / sqrt (num_relations + dim): each bound comes from the row count of
    its own table. *)
Theorem default_initialization_bound (tf : TriplesFactory) (dim : nat)
    (crit : option Loss) (g : Generator) :
  let self := fst (__init__ tf None None dim crit g) in
  let b_e := 6 / sqrt (INR (num_entities tf + dim)) in
  let b_r := 6 / sqrt (INR (num_relations tf + dim)) in
  (length (nn.weight (entity_embeddings self)) = num_entities tf
   /\ Forall (fun row => length row = dim /\ Forall (fun v => - b_e <= v <= b_e) row)
             (nn.weight (entity_embeddings self)))
  /\ (length (nn.weight (relation_embeddings self)) = num_relations tf
      /\ Forall (fun row => length row = dim /\ Forall (fun v => - b_r <= v <= b_r) row)
                (nn.weight (relation_embeddings self))).
Proof.
  intros self b_e b_r. subst self. unfold __init__.
  pose proof (_init_embeddings_spec tf dim g) as H.
  destruct (_init_embeddings tf dim g) as [[entity relation] g']; simpl in *.
  exact H.
Qed.

(** ** Construction *)

(** C7, amended: for every construction with both embedding tables
    supplied, the random initialization is bypassed (the generator is
    untouched) and the model holds the two supplied tables unchanged. *)
Theorem init_both_supplied (tf : TriplesFactory) (entity relation : nn.Embedding)
    (dim : nat) (crit : option Loss) (g : Generator) :
  entity_embeddings (fst (__init__ tf (Some entity) (Some relation) dim crit g)) = entity
  /\ relation_embeddings (fst (__init__ tf (Some entity) (Some relation) dim crit g))
     = relation
  /\ snd (__init__ tf (Some entity) (Some relation) dim crit g) = g.
Proof. repeat split. Qed.

(** With one table missing, the other one is not looked at: both tables
    of the model are the freshly initialized ones. *)
Lemma init_one_missing (tf : TriplesFactory) (entity relation : option nn.Embedding)
    (dim : nat) (crit : option Loss) (g : Generator) :
  entity = None \/ relation = None ->
  entity_embeddings (fst (__init__ tf entity relation dim crit g))
  = fst (fst (_init_embeddings tf dim g))
  /\ relation_embeddings (fst (__init__ tf entity relation dim crit g))
     = snd (fst (_init_embeddings tf dim g)).
Proof.
  intros H. unfold __init__.
  destruct entity as [e|], relation as [r|];
    try (destruct H; discriminate);
    destruct (_init_embeddings tf dim g) as [[e' r'] g']; split; reflexivity.
Qed.

(** C7 as stated fails at a construction with the entity table supplied
    and the relation table left out: the model does not hold the supplied
    table (whose one value is 100) but a new one, whose one value is
    - 6 / sqrt 2. *)
Lemma supplied_entity_table_discarded :
  nn.weight (entity_embeddings
               (fst (__init__ one_of_each (Some supplied_entities) None 1 None zero_draws)))
  = [[- (6 / sqrt 2)]]
  /\ entity_embeddings
       (fst (__init__ one_of_each (Some supplied_entities) None 1 None zero_draws))
     <> supplied_entities.
Proof.
  assert (H : nn.weight (entity_embeddings
               (fst (__init__ one_of_each (Some supplied_entities) None 1 None zero_draws)))
              = [[- (6 / sqrt 2)]]).
  { unfold __init__, _init_embeddings, nn.Embedding_new, nn.init.uniform_. simpl.
    entrywise. replace (1 + 1) with 2 by lra. lra. }
  split; [exact H|].
  intros Heq. rewrite Heq in H. simpl in H. injection H as H.
  pose proof (init_bound_nonneg 2). lra.
Qed.

(** C10: built without a criterion, the model has the margin ranking loss
    of margin 1 and mean reduction, which is not the self-adversarial loss;
    a criterion that is passed is the criterion of the model. *)
Theorem default_criterion (tf : TriplesFactory) (entity relation : option nn.Embedding)
    (dim : nat) (g : Generator) :
  criterion (fst (__init__ tf entity relation dim None g)) = MarginRankingLoss 1 Mean
  /\ (forall margin temperature : R,
        criterion (fst (__init__ tf entity relation dim None g))
        <> NegativeSamplingSelfAdversarialLoss margin temperature)
  /\ (forall c : Loss, criterion (fst (__init__ tf entity relation dim (Some c) g)) = c).
Proof.
  assert (H : forall crit, criterion (fst (__init__ tf entity relation dim crit g))
              = match crit with None => MarginRankingLoss 1 Mean | Some c => c end).
  { intros crit. unfold __init__.
    destruct entity as [e|], relation as [r|]; try reflexivity;
      destruct (_init_embeddings tf dim g) as [[e' r'] g']; reflexivity. }
  split; [apply H|]. split.
  - intros m t. rewrite H. discriminate.
  - intros c. apply H.
Qed.

(** ** Empty batches *)

Lemma forward_owa_nil (self : HolE) : forward_owa self [] = raise RuntimeError.
Proof. reflexivity. Qed.

Lemma forward_cwa_nil (self : HolE) : forward_cwa self [] = raise RuntimeError.
Proof. reflexivity. Qed.

Lemma forward_inverse_cwa_nil (self : HolE) :
  forward_inverse_cwa self [] = raise RuntimeError.
Proof.
  unfold forward_inverse_cwa. simpl.
  destruct (nn.weight (entity_embeddings self)); reflexivity.
Qed.

(** C8, as the code behaves: in each of the three scoring modes a batch
    without rows is rejected.  The lookups gather a tensor without rows,
    which the forward transform refuses with a [RuntimeError]; no score
    tensor is returned. *)
Theorem empty_batch (self : HolE) :
  forward_owa self [] = raise RuntimeError
  /\ forward_cwa self [] = raise RuntimeError
  /\ forward_inverse_cwa self [] = raise RuntimeError.
Proof.
  split; [apply forward_owa_nil|].
  split; [apply forward_cwa_nil | apply forward_inverse_cwa_nil].
Qed.

(** C8, as the specification words it, fails at the model [unit_rows]: the
    batch without rows does not get the score tensor without rows, in any
    of the three modes. *)
Lemma empty_batch_no_scores_at_unit_rows :
  forward_owa unit_rows [] <> ok []
  /\ forward_cwa unit_rows [] <> ok []
  /\ forward_inverse_cwa unit_rows [] <> ok [].
Proof. repeat split; discriminate. Qed.

(** ** Shapes *)

Lemma rfft_row_length (x : list R) : length (torch.rfft_row x) = length x.
Proof. unfold torch.rfft_row. now rewrite length_map, length_seq. Qed.

Lemma irfft_row_length (p : list torch.re_im) : length (torch.irfft_row p) = length p.
Proof. unfold torch.irfft_row. now rewrite length_map, length_seq. Qed.

Lemma irfft_row_onesided_length (p : list torch.re_im) :
  length (torch.irfft_row_onesided p) = length p.
Proof. unfold torch.irfft_row_onesided. now rewrite length_map, length_seq. Qed.

Lemma composite_spectrum_length (h t : list R) :
  length (composite_spectrum h t) = Nat.min (length h) (length t).
Proof.
  unfold composite_spectrum, torch.mul_row.
  now rewrite map2_length, length_map, !rfft_row_length.
Qed.

(** ** Lookups *)

Lemma lookup_valid (E : nn.Embedding) (i : Z) :
  wf_embedding E -> valid_index E i ->
  nn.lookup E i = ok (row E i) /\ In (row E i) (nn.weight E)
  /\ length (row E i) = nn.embedding_dim E.
Proof.
  intros [Hlen Hrows] [H0 Hn]. unfold nn.lookup, row.
  assert (Hlt : (Z.to_nat i < length (nn.weight E))%nat) by lia.
  destruct (Z.leb_spec 0 i) as [_|]; [|lia].
  rewrite (nth_error_nth' _ [] Hlt).
  assert (Hin : In (nth (Z.to_nat i) (nn.weight E) []) (nn.weight E)) by now apply nth_In.
  repeat split; [exact Hin|].
  rewrite Forall_forall in Hrows. now apply Hrows.
Qed.

(** An index outside of the table is an error, not a wrapped or a
    truncated lookup. *)
Lemma lookup_invalid (E : nn.Embedding) (i : Z) :
  wf_embedding E -> ~ valid_index E i -> nn.lookup E i = raise IndexError.
Proof.
  intros [Hlen _] Hi. unfold nn.lookup, valid_index in *.
  destruct (Z.leb_spec 0 i) as [H0|]; [|reflexivity].
  destruct (nth_error (nn.weight E) (Z.to_nat i)) eqn:Hn; [|reflexivity].
  exfalso. apply Hi. split; [exact H0|].
  assert (Hsome : nth_error (nn.weight E) (Z.to_nat i) <> None) by congruence.
  apply nth_error_Some in Hsome. lia.
Qed.

Lemma forward_valid (E : nn.Embedding) (indices : list Z) :
  wf_embedding E -> Forall (valid_index E) indices ->
  nn.forward E indices = ok (map (row E) indices).
Proof.
  intros Hwf Hv. unfold nn.forward. apply mapM_ok.
  intros i Hi. rewrite Forall_forall in Hv. now apply lookup_valid; [|apply Hv].
Qed.

Lemma map_nonempty {A B : Type} (f : A -> B) (l : list A) : l <> [] -> map f l <> [].
Proof. destruct l; [congruence | discriminate]. Qed.

Lemma rfft_ok (x : list (list R)) :
  x <> [] -> torch.rfft x = ok (map torch.rfft_row x).
Proof. destruct x; [congruence | reflexivity]. Qed.

Lemma irfft_ok (p : list (list torch.re_im)) (s : nat) :
  p <> [] ->
  Forall (fun p_i => length p_i = s) p ->
  torch.irfft p s = ok (map torch.irfft_row_onesided p).
Proof.
  intros Hp H. unfold torch.irfft. destruct p as [|p0 p]; [congruence|].
  apply mapM_ok. intros p_i Hi.
  rewrite Forall_forall in H. rewrite (H _ Hi), Nat.eqb_refl. reflexivity.
Qed.

Lemma valid_index_nonempty (E : nn.Embedding) (i : Z) :
  wf_embedding E -> valid_index E i -> nn.weight E <> [].
Proof.
  intros [Hl _] [H0 Hn] Hw. rewrite Hw in Hl. simpl in Hl. lia.
Qed.

(** ** The three forward passes, row by row *)

Section Forward.

Variable self : HolE.
Hypothesis wf : wf_model self.

(** One score per row of the batch: the dot product of the relation row
    with the composite vector of the head row and the tail row. *)
Lemma forward_owa_rows (batch : list (Z * Z * Z)) :
  batch <> [] ->
  Forall (valid_triple self) batch ->
  forward_owa self batch
  = ok (map (fun x => [score_row (row (entity_embeddings self) (fst (fst x)))
                                 (row (relation_embeddings self) (snd (fst x)))
                                 (row (entity_embeddings self) (snd x))]) batch).
Proof.
  intros Hne Hv. destruct wf as (HE & HR & HdE & HdR). unfold forward_owa.
  rewrite (forward_valid (entity_embeddings self)),
    (forward_valid (relation_embeddings self)),
    (forward_valid (entity_embeddings self)); trivial;
    try (rewrite Forall_map; eapply Forall_impl; [|exact Hv]; unfold valid_triple;
         intros x Hx; tauto).
  cbn [bind ok]. rewrite !rfft_ok by (repeat apply map_nonempty; exact Hne).
  cbn [bind ok]. rewrite !map_map.
  rewrite (map2_map torch.mul_row).
  rewrite irfft_ok.
  - simpl. rewrite !map_map. rewrite (map2_map _ _ _ batch). reflexivity.
  - repeat apply map_nonempty. exact Hne.
  - rewrite Forall_map. eapply Forall_impl; [|exact Hv]. intros x (Hh & _ & Ht).
    simpl.
    change (length (composite_spectrum (row (entity_embeddings self) (fst (fst x)))
                                       (row (entity_embeddings self) (snd x)))
            = nn.embedding_dim (entity_embeddings self)).
    rewrite composite_spectrum_length.
    destruct (lookup_valid _ _ HE Hh) as (_ & _ & Lh).
    destruct (lookup_valid _ _ HE Ht) as (_ & _ & Lt).
    rewrite Lh, Lt. apply Nat.min_id.
Qed.

(** One row of scores per (head, relation) pair, one score per entity
    taken as tail. *)
Lemma forward_cwa_rows (batch : list (Z * Z)) :
  batch <> [] ->
  Forall (valid_head_relation self) batch ->
  forward_cwa self batch
  = ok (map (fun x => map (fun t_j => score_row (row (entity_embeddings self) (fst x))
                                                (row (relation_embeddings self) (snd x))
                                                t_j)
                          (nn.weight (entity_embeddings self))) batch).
Proof.
  intros Hne Hv. destruct wf as (HE & HR & HdE & HdR). unfold forward_cwa.
  assert (Hw : nn.weight (entity_embeddings self) <> []).
  { destruct batch as [|x batch]; [congruence|]. inversion Hv as [|x' b' [Hh _] _]; subst.
    exact (valid_index_nonempty _ _ HE Hh). }
  rewrite (forward_valid (entity_embeddings self)),
    (forward_valid (relation_embeddings self)); trivial;
    try (rewrite Forall_map; eapply Forall_impl; [|exact Hv];
         unfold valid_head_relation; intros x Hx; tauto).
  cbn [bind ok].
  rewrite !rfft_ok by first [exact Hw | repeat apply map_nonempty; exact Hne].
  cbn [bind ok]. rewrite !map_map.
  rewrite (mapM_ok _ (fun p_i => map torch.irfft_row_onesided p_i)).
  - simpl. rewrite !map_map. rewrite (map2_map _ _ _ batch). f_equal. apply map_ext.
    intros x. rewrite !map_map. reflexivity.
  - intros p_i Hp. apply in_map_iff in Hp. destruct Hp as (x & <- & Hx).
    apply irfft_ok; [repeat apply map_nonempty; exact Hw|].
    rewrite !Forall_map. pose proof HE as [_ Hrows].
    rewrite Forall_forall in Hrows, Hv. apply Forall_forall. intros t_j Ht.
    change (length (composite_spectrum (row (entity_embeddings self) (fst x)) t_j)
            = embedding_dim self).
    rewrite composite_spectrum_length, (Hrows _ Ht).
    destruct (Hv _ Hx) as [Hh _].
    destruct (lookup_valid _ _ HE Hh) as (_ & _ & Lh).
    rewrite Lh, HdE. apply Nat.min_id.
Qed.

(** One row of scores per (relation, tail) pair, one score per entity
    taken as head: the rows of the whole table are the ones whose
    transform has its imaginary part negated. *)
Lemma forward_inverse_cwa_rows (batch : list (Z * Z)) :
  batch <> [] ->
  Forall (valid_relation_tail self) batch ->
  forward_inverse_cwa self batch
  = ok (map (fun x => map (fun h_j => score_row h_j
                                                (row (relation_embeddings self) (fst x))
                                                (row (entity_embeddings self) (snd x)))
                          (nn.weight (entity_embeddings self))) batch).
Proof.
  intros Hne Hv. destruct wf as (HE & HR & HdE & HdR). unfold forward_inverse_cwa.
  assert (Hw : nn.weight (entity_embeddings self) <> []).
  { destruct batch as [|x batch]; [congruence|]. inversion Hv as [|x' b' [_ Ht] _]; subst.
    exact (valid_index_nonempty _ _ HE Ht). }
  rewrite (forward_valid (entity_embeddings self)),
    (forward_valid (relation_embeddings self)); trivial;
    try (rewrite Forall_map; eapply Forall_impl; [|exact Hv];
         unfold valid_relation_tail; intros x Hx; tauto).
  cbn [bind ok].
  rewrite !rfft_ok by first [exact Hw | repeat apply map_nonempty; exact Hne].
  cbn [bind ok]. rewrite !map_map.
  rewrite (mapM_ok _ (fun p_i => map torch.irfft_row_onesided p_i)).
  - simpl. rewrite !map_map. rewrite (map2_map _ _ _ batch). f_equal. apply map_ext.
    intros x. rewrite !map_map. reflexivity.
  - intros p_i Hp. apply in_map_iff in Hp. destruct Hp as (x & <- & Hx).
    apply irfft_ok; [repeat apply map_nonempty; exact Hw|].
    rewrite !Forall_map. pose proof HE as [_ Hrows].
    rewrite Forall_forall in Hrows, Hv. apply Forall_forall. intros h_j Hh.
    change (length (composite_spectrum h_j (row (entity_embeddings self) (snd x)))
            = embedding_dim self).
    rewrite composite_spectrum_length, (Hrows _ Hh).
    destruct (Hv _ Hx) as [_ Ht].
    destruct (lookup_valid _ _ HE Ht) as (_ & _ & Lt).
    rewrite Lt, HdE. apply Nat.min_id.
Qed.

End Forward.

Lemma wf_unit_rows : wf_model unit_rows.
Proof.
  unfold wf_model, wf_embedding; simpl. repeat split; repeat constructor.
Qed.

(** C3: for a well-formed model and valid indices h, r, t, the score of
    the single triple (h, r, t) is entry t of the row that the all-tails
    pass returns for (h, r), and entry h of the row that the all-heads pass
    returns for (r, t); each of these rows has one entry per entity.  The
    proof does not look into the two transforms. *)
Theorem mode_consistency (self : HolE) (h r t : Z) :
  wf_model self ->
  valid_index (entity_embeddings self) h ->
  valid_index (relation_embeddings self) r ->
  valid_index (entity_embeddings self) t ->
  exists (score : R) (all_tails all_heads : list R),
    forward_owa self [(h, r, t)] = ok [[score]]
    /\ forward_cwa self [(h, r)] = ok [all_tails]
    /\ nth_error all_tails (Z.to_nat t) = Some score
    /\ length all_tails = nn.num_embeddings (entity_embeddings self)
    /\ forward_inverse_cwa self [(r, t)] = ok [all_heads]
    /\ nth_error all_heads (Z.to_nat h) = Some score
    /\ length all_heads = nn.num_embeddings (entity_embeddings self).
Proof.
  intros wf Hh Hr Ht.
  pose proof wf as ((Hlen & Hrows) & _).
  set (E := entity_embeddings self) in *.
  set (Rel := relation_embeddings self) in *.
  exists (score_row (row E h) (row Rel r) (row E t)),
    (map (fun t_j => score_row (row E h) (row Rel r) t_j) (nn.weight E)),
    (map (fun h_j => score_row h_j (row Rel r) (row E t)) (nn.weight E)).
  rewrite (forward_owa_rows self wf)
    by first [discriminate | constructor; [split; [|split]; assumption | constructor]].
  rewrite (forward_cwa_rows self wf)
    by first [discriminate | constructor; [split; assumption | constructor]].
  rewrite (forward_inverse_cwa_rows self wf)
    by first [discriminate | constructor; [split; assumption | constructor]].
  unfold valid_index in Hh, Ht. simpl. fold E Rel.
  repeat split.
  - rewrite nth_error_map, (nth_error_nth' _ []) by lia. reflexivity.
  - now rewrite length_map.
  - rewrite nth_error_map, (nth_error_nth' _ []) by lia. reflexivity.
  - now rewrite length_map.
Qed.

Lemma mode_consistency_witness :
  exists (score : R) (all_tails all_heads : list R),
    forward_owa unit_rows [(0, 0, 1)%Z] = ok [[score]]
    /\ forward_cwa unit_rows [(0, 0)%Z] = ok [all_tails]
    /\ nth_error all_tails (Z.to_nat 1) = Some score
    /\ length all_tails = nn.num_embeddings (entity_embeddings unit_rows)
    /\ forward_inverse_cwa unit_rows [(0, 1)%Z] = ok [all_heads]
    /\ nth_error all_heads (Z.to_nat 0) = Some score
    /\ length all_heads = nn.num_embeddings (entity_embeddings unit_rows).
Proof.
  apply (mode_consistency unit_rows 0 0 1).
  - unfold wf_model, wf_embedding; simpl. repeat split; repeat constructor.
  - unfold valid_index; simpl; lia.
  - unfold valid_index; simpl; lia.
  - unfold valid_index; simpl; lia.
Defined.

(** ** The transforms of length four *)

Lemma theta4_split (k n : nat) :
  torch.theta 4 k n
  = INR ((k * n) mod 4) * (PI / 2) + 2 * INR ((k * n) / 4) * PI.
Proof.
  unfold torch.theta.
  rewrite (Nat.div_mod_eq (k * n) 4) at 1.
  rewrite plus_INR, mult_INR. simpl (INR 4). field.
Qed.

Lemma cos_theta4 (k n : nat) :
  cos (torch.theta 4 k n) = quarter_cos ((k * n) mod 4).
Proof.
  rewrite theta4_split, cos_period.
  pose proof (Nat.mod_upper_bound (k * n) 4 ltac:(lia)) as Hlt.
  destruct ((k * n) mod 4) as [|[|[|[|m]]]]; try lia; simpl.
  - rewrite Rmult_0_l. apply cos_0.
  - rewrite Rmult_1_l. apply cos_PI2.
  - replace ((1 + 1) * (PI / 2)) with PI by field. apply cos_PI.
  - replace ((1 + 1 + 1) * (PI / 2)) with (3 * (PI / 2)) by field. apply cos_3PI2.
Qed.

Lemma sin_theta4 (k n : nat) :
  sin (torch.theta 4 k n) = quarter_sin ((k * n) mod 4).
Proof.
  rewrite theta4_split, sin_period.
  pose proof (Nat.mod_upper_bound (k * n) 4 ltac:(lia)) as Hlt.
  destruct ((k * n) mod 4) as [|[|[|[|m]]]]; try lia; simpl.
  - rewrite Rmult_0_l. apply sin_0.
  - rewrite Rmult_1_l. apply sin_PI2.
  - replace ((1 + 1) * (PI / 2)) with PI by field. apply sin_PI.
  - replace ((1 + 1 + 1) * (PI / 2)) with (3 * (PI / 2)) by field. apply sin_3PI2.
Qed.

(** Unfold a transform of a row of four entries and evaluate its sines
    and cosines. *)
Ltac dft4 :=
  cbv [composite_spectrum spectral_correlation hadamard cmul conjugate
       torch.irfft_row torch.rfft_row torch.mul_row torch.neg_imag torch.mul_re_im
       map2 map seq length nth rsum fst snd];
  rewrite ?cos_theta4, ?sin_theta4;
  cbn [Nat.mul Nat.add Nat.modulo Nat.divmod fst snd Nat.sub quarter_cos quarter_sin].

Lemma rfft_e0 : torch.rfft_row [1; 0; 0; 0] = [(1, 0); (1, 0); (1, 0); (1, 0)].
Proof. dft4. entrywise; lra. Qed.

Lemma rfft_e1 : torch.rfft_row [0; 1; 0; 0] = [(1, 0); (0, -1); (-1, 0); (0, 1)].
Proof. dft4. entrywise; lra. Qed.

Lemma composite_spectrum_e0_e1 :
  composite_spectrum [1; 0; 0; 0] [0; 1; 0; 0] = [(1, 0); (0, 0); (-1, 0); (0, 0)].
Proof.
  unfold composite_spectrum. rewrite rfft_e0, rfft_e1.
  cbv [torch.mul_row map2 map torch.neg_imag torch.mul_re_im fst snd].
  entrywise; lra.
Qed.

Lemma irfft_composite_e0_e1 :
  torch.irfft_row (composite_spectrum [1; 0; 0; 0] [0; 1; 0; 0]) = [0; 1 / 2; 0; 1 / 2].
Proof.
  rewrite composite_spectrum_e0_e1. dft4. simpl INR. entrywise; lra.
Qed.

Lemma irfft_onesided_composite_e0_e1 :
  torch.irfft_row_onesided (composite_spectrum [1; 0; 0; 0] [0; 1; 0; 0])
  = [0; 1 / 2; 0; 1 / 2].
Proof.
  rewrite composite_spectrum_e0_e1.
  cbv [torch.irfft_row_onesided map seq length nth rsum fst snd Nat.even Nat.sub
       Nat.div Nat.divmod].
  rewrite ?cos_theta4, ?sin_theta4.
  cbn [Nat.mul Nat.add Nat.modulo Nat.divmod fst snd Nat.sub quarter_cos quarter_sin].
  simpl INR. entrywise; lra.
Qed.

Lemma spectral_correlation_e0_e1 :
  spectral_correlation [1; 0; 0; 0] [0; 1; 0; 0] = [0; 1; 0; 0].
Proof.
  unfold spectral_correlation. rewrite rfft_e0, rfft_e1.
  cbv [hadamard map2 map conjugate cmul fst snd].
  dft4. simpl INR. entrywise; lra.
Qed.

Lemma circular_correlation_e0_e1 :
  circular_correlation [1; 0; 0; 0] [0; 1; 0; 0] = [0; 1; 0; 0].
Proof.
  cbv [circular_correlation map seq length rsum].
  cbn [Nat.add Nat.modulo Nat.divmod fst snd Nat.sub nth]. entrywise; lra.
Qed.

Lemma composite_spectrum_e0_e1_symmetric :
  conjugate_symmetric (composite_spectrum [1; 0; 0; 0] [0; 1; 0; 0]).
Proof.
  rewrite composite_spectrum_e0_e1. intros k Hk. simpl in Hk.
  destruct k as [|[|[|[|k]]]]; try lia;
    cbn [length Nat.sub Nat.modulo Nat.divmod fst snd nth]; unfold conjugate;
    cbn [fst snd]; entrywise; lra.
Qed.

(** C1, at the batch of the one triple (0, 0, 1) of the model [unit_rows]
    (head row (1, 0, 0, 0), relation row (0, 1, 0, 0), tail row
    (0, 1, 0, 0)): [forward_owa] returns the score 1/2, whereas the dot
    product of the relation row with IFFT (conj (FFT head) (.) FFT tail) is
    1. *)
Theorem forward_owa_at_unit_rows :
  forward_owa unit_rows [(0, 0, 1)%Z] = ok [[1 / 2]]
  /\ spectral_score [1; 0; 0; 0] [0; 1; 0; 0] [0; 1; 0; 0] = 1.
Proof.
  split.
  - rewrite (forward_owa_rows unit_rows wf_unit_rows).
    + change (ok [[score_row [1; 0; 0; 0] [0; 1; 0; 0] [0; 1; 0; 0]]] = ok [[1 / 2]]).
      unfold score_row. rewrite irfft_onesided_composite_e0_e1.
      cbv [map2 torch.sum fold_right].
      unfold ok. apply f_equal. entrywise. lra.
    + discriminate.
    + constructor; [|constructor]. unfold valid_triple, valid_index; simpl. lia.
  - unfold spectral_score. rewrite spectral_correlation_e0_e1.
    cbv [map2 torch.sum fold_right]. lra.
Qed.

(** C2, at the vectors a = (1, 0, 0, 0) and b = (0, 1, 0, 0) of length
    four: the composite vector the code computes in the frequency domain
    is (0, 1/2, 0, 1/2), the direct circular correlation is (0, 1, 0, 0);
    the spectrum handed to the inverse transform is conjugate symmetric,
    so the inverse transform over all frequencies and the one the library
    applies, which reads half of the spectrum, return the same vector. *)
Theorem composite_versus_direct_at_unit_rows :
  torch.irfft_row (composite_spectrum [1; 0; 0; 0] [0; 1; 0; 0]) = [0; 1 / 2; 0; 1 / 2]
  /\ circular_correlation [1; 0; 0; 0] [0; 1; 0; 0] = [0; 1; 0; 0]
  /\ conjugate_symmetric (composite_spectrum [1; 0; 0; 0] [0; 1; 0; 0])
  /\ torch.irfft_row_onesided (composite_spectrum [1; 0; 0; 0] [0; 1; 0; 0])
     = [0; 1 / 2; 0; 1 / 2].
Proof.
  split; [apply irfft_composite_e0_e1|].
  split; [apply circular_correlation_e0_e1|].
  split; [apply composite_spectrum_e0_e1_symmetric | apply irfft_onesided_composite_e0_e1].
Qed.

(** ** The norm bound *)

Lemma sum_squares_nonneg (x : list R) : 0 <= torch.sum (map (fun v => v * v) x).
Proof.
  unfold torch.sum. induction x as [|v x IH]; simpl; [lra | nra].
Qed.

Lemma sum_squares_scaled (c : R) (x : list R) :
  torch.sum (map (fun v => v * v) (map (fun v => v * c) x))
  = c * c * torch.sum (map (fun v => v * v) x).
Proof.
  unfold torch.sum. induction x as [|v x IH]; simpl; [lra | rewrite IH; ring].
Qed.

Lemma norm_scaled (c : R) (x : list R) :
  0 <= c -> norm (map (fun v => v * c) x) = c * norm x.
Proof.
  intros Hc. unfold norm. rewrite sum_squares_scaled.
  rewrite sqrt_mult_alt by nra. now rewrite sqrt_square.
Qed.

Lemma map_scale_one (x : list R) : map (fun v => v * 1) x = x.
Proof. induction x as [|v x IH]; simpl; [reflexivity | rewrite IH; f_equal; lra]. Qed.

(** A clipped row is the row scaled by a factor in (0, 1], and its norm
    is within the bound. *)
Lemma clip_row_spec (max_norm : R) (x : list R) :
  0 < max_norm ->
  norm (clip_row max_norm x) <= max_norm
  /\ exists c : R, 0 < c <= 1 /\ clip_row max_norm x = map (fun v => v * c) x.
Proof.
  intros Hm. unfold clip_row. destruct (Rle_dec (norm x) max_norm) as [Hle|Hgt].
  - split; [exact Hle|]. exists 1. split; [lra | now rewrite map_scale_one].
  - apply Rnot_le_lt in Hgt.
    assert (Hn : 0 < norm x) by lra.
    assert (Hc : 0 < max_norm / norm x <= 1).
    { split.
      - now apply Rdiv_lt_0_compat.
      - apply (Rmult_le_reg_r (norm x)); [exact Hn|].
        unfold Rdiv. rewrite Rmult_assoc, Rinv_l by lra. lra. }
    split.
    + rewrite norm_scaled by lra. apply Req_le. field. lra.
    + exists (max_norm / norm x). split; [exact Hc | reflexivity].
Qed.

(** A row of norm 5 is brought onto the bound. *)
Lemma clip_row_3_4 : clip_row 1 [3; 4] = [3 * (1 / 5); 4 * (1 / 5)].
Proof.
  assert (Hn : norm [3; 4] = 5).
  { unfold norm, torch.sum; simpl. replace (3 * 3 + (4 * 4 + 0)) with (5 * 5) by lra.
    apply sqrt_square. lra. }
  unfold clip_row. rewrite Hn. destruct (Rle_dec 5 1) as [H|_]; [lra | reflexivity].
Qed.

(** C9: after any update of the embeddings (whatever values the optimizer
    wrote) every entity row has a Euclidean norm of at most 1, the maximal
    norm the model declares; every row is the written row scaled by a
    factor in (0, 1], so rows are rescaled down and none is rejected; the
    relation table is the written one, without any constraint. *)
Theorem max_norm_invariant (self : HolE) (entity_weight relation_weight : list (list R)) :
  let self' := update self entity_weight relation_weight in
  Forall (fun row => norm row <= 1) (nn.weight (entity_embeddings self'))
  /\ Forall2 (fun new old => exists c : R, 0 < c <= 1 /\ new = map (fun v => v * c) old)
             (nn.weight (entity_embeddings self')) entity_weight
  /\ nn.weight (relation_embeddings self') = relation_weight.
Proof.
  simpl. repeat split.
  - rewrite Forall_map. apply Forall_forall. intros x _.
    apply (clip_row_spec entity_embedding_max_norm x). unfold entity_embedding_max_norm. lra.
  - induction entity_weight as [|x w IH]; simpl; constructor; [|exact IH].
    apply (clip_row_spec entity_embedding_max_norm x). unfold entity_embedding_max_norm. lra.
Qed.

(** ** Bounds of the exponential and of the logarithm *)

Lemma exp_term_series (x : R) (k : nat) : exp_term x k = / INR (fact k) * x ^ k.
Proof.
  induction k as [|k IH].
  - simpl. field.
  - change (exp_term x (S k)) with (exp_term x k * x / INR (S k)).
    rewrite IH, fact_simpl, mult_INR. simpl (x ^ S k).
    field. split; [apply INR_fact_neq_0 | apply not_0_INR; lia].
Qed.

Lemma exp_series (x : R) : Un_cv (fun n => sum_f_R0 (exp_term x) n) (exp x).
Proof.
  intros eps Heps. unfold exp. destruct (exist_exp x) as [l Hl]; simpl.
  destruct (Hl eps Heps) as [N HN]. exists N. intros n Hn.
  rewrite (sum_eq _ (fun i => / INR (fact i) * x ^ i)); [now apply HN|].
  intros i _. apply exp_term_series.
Qed.

Lemma exp_term_nonneg (x : R) (k : nat) : 0 <= x -> 0 <= exp_term x k.
Proof.
  intros Hx. induction k as [|k IH]; [simpl; lra|].
  change (exp_term x (S k)) with (exp_term x k * x / INR (S k)).
  apply Rmult_le_pos; [now apply Rmult_le_pos|].
  apply Rlt_le, Rinv_0_lt_compat, lt_0_INR. lia.
Qed.

(** For a positive argument the partial sums stay below the exponential. *)
Lemma exp_sum_lower (x : R) (N : nat) : 0 <= x -> exp_sum x N <= exp x.
Proof.
  intros Hx. apply sum_incr; [apply exp_series|].
  intros n. now apply exp_term_nonneg.
Qed.

Lemma exp_term_alt (x : R) (k : nat) : exp_term (- x) k = tg_alt (exp_term x) k.
Proof.
  unfold tg_alt. induction k as [|k IH].
  - simpl. lra.
  - change (exp_term (- x) (S k)) with (exp_term (- x) k * - x / INR (S k)).
    change (exp_term x (S k)) with (exp_term x k * x / INR (S k)).
    rewrite IH. simpl ((-1) ^ S k). unfold Rdiv. ring.
Qed.

(** For an argument in [-1, 0] the series alternates: the exponential
    lies between two consecutive partial sums. *)
Lemma exp_sum_alternating (x : R) (N : nat) :
  0 <= x <= 1 ->
  exp_sum (- x) (S (2 * N)) <= exp (- x) <= exp_sum (- x) (2 * N).
Proof.
  intros [H0 H1]. unfold exp_sum.
  rewrite !(sum_eq (exp_term (- x)) (tg_alt (exp_term x)))
    by (intros; apply exp_term_alt).
  apply alternated_series_ineq.
  - intros n. change (exp_term x (S n)) with (exp_term x n * x / INR (S n)).
    pose proof (exp_term_nonneg x n H0) as Ht.
    assert (Hn : 1 <= INR (S n)) by (rewrite S_INR; pose proof (pos_INR n); lra).
    unfold Rdiv. rewrite Rmult_assoc.
    rewrite <- (Rmult_1_r (exp_term x n)) at 2.
    apply Rmult_le_compat_l; [exact Ht|].
    apply (Rmult_le_reg_r (INR (S n))); [lra|].
    rewrite Rmult_assoc, Rinv_l by lra. nra.
  - intros eps Heps. destruct (cv_speed_pow_fact x eps Heps) as [M HM].
    exists M. intros n Hn. specialize (HM n Hn).
    rewrite exp_term_series. unfold Rdiv in HM. now rewrite Rmult_comm.
  - intros eps Heps. destruct (exp_series (- x) eps Heps) as [M HM].
    exists M. intros n Hn. specialize (HM n Hn).
    rewrite <- (sum_eq (exp_term (- x)) (tg_alt (exp_term x)))
      by (intros; apply exp_term_alt). exact HM.
Qed.

Lemma exp_sum_8 (x : R) : exp_sum x 8 = exp_poly8 x.
Proof. unfold exp_sum, exp_poly8. simpl. field. Qed.

Lemma exp_sum_9 (x : R) : exp_sum x 9 = exp_poly9 x.
Proof. unfold exp_sum, exp_poly9, exp_poly8. simpl. field. Qed.

Lemma exp_neg_bounds (x : R) :
  0 <= x <= 1 -> exp_poly9 (- x) <= exp (- x) <= exp_poly8 (- x).
Proof.
  intros Hx. rewrite <- exp_sum_8, <- exp_sum_9. apply (exp_sum_alternating x 4 Hx).
Qed.

Lemma exp_pos_lower (x : R) : 0 <= x -> exp_poly9 x <= exp x.
Proof. intros Hx. rewrite <- exp_sum_9. now apply exp_sum_lower. Qed.

Lemma exp_poly9_pos (x : R) : 0 <= x <= 1 -> 0 < exp_poly9 (- x).
Proof.
  intros Hx. unfold exp_poly9, exp_poly8.
  assert (H2 : 0 <= x ^ 2 <= x) by nra.
  assert (Hq : 0 < x ^ 2 / 3 - x + 1) by nra.
  assert (H3 : 0 <= x ^ 3 <= x ^ 2) by nra.
  assert (H4 : 0 <= x ^ 4 <= x ^ 3) by nra.
  assert (H5 : 0 <= x ^ 5 <= x ^ 4) by nra.
  assert (H6 : 0 <= x ^ 6 <= x ^ 5) by nra.
  assert (H7 : 0 <= x ^ 7 <= x ^ 6) by nra.
  assert (H8 : 0 <= x ^ 8 <= x ^ 7) by nra.
  assert (H9 : 0 <= x ^ 9 <= x ^ 8) by nra.
  replace ((- x) ^ 2) with (x ^ 2) by ring.
  replace ((- x) ^ 3) with (- x ^ 3) by ring.
  replace ((- x) ^ 4) with (x ^ 4) by ring.
  replace ((- x) ^ 5) with (- x ^ 5) by ring.
  replace ((- x) ^ 6) with (x ^ 6) by ring.
  replace ((- x) ^ 7) with (- x ^ 7) by ring.
  replace ((- x) ^ 8) with (x ^ 8) by ring.
  replace ((- x) ^ 9) with (- x ^ 9) by ring.
  lra.
Qed.

(** Bounds of a logarithm from bounds of the exponential. *)
Lemma ln_upper (y u : R) : 0 < y -> 0 <= u -> y <= exp_poly9 u -> ln y <= u.
Proof.
  intros Hy Hu Hle. apply Rnot_lt_le. intros Hlt.
  apply exp_increasing in Hlt. rewrite exp_ln in Hlt by exact Hy.
  pose proof (exp_pos_lower u Hu). lra.
Qed.

Lemma ln_lower (y l : R) : 0 < y -> 0 <= l <= 1 -> 1 <= y * exp_poly9 (- l) -> l <= ln y.
Proof.
  intros Hy Hl Hle. apply Rnot_lt_le. intros Hlt.
  apply exp_increasing in Hlt. rewrite exp_ln in Hlt by exact Hy.
  destruct (exp_neg_bounds l Hl) as [Hp _].
  pose proof (exp_poly9_pos l Hl) as Hpos.
  pose proof (exp_pos l) as Hel.
  assert (Hone : exp l * exp (- l) = 1).
  { rewrite exp_Ropp. field. lra. }
  nra.
Qed.

Ltac ln_bounds :=
  split;
  [ apply ln_lower; [lra | lra | unfold exp_poly9, exp_poly8; lra]
  | apply ln_upper; [lra | lra | unfold exp_poly9, exp_poly8; lra] ].

Lemma quotient_bounds (num den lo hi : R) :
  0 < den -> lo * den <= num <= hi * den -> lo <= num / den <= hi.
Proof.
  intros Hd [Hl Hu]. split.
  - apply (Rmult_le_reg_r den); [exact Hd|].
    unfold Rdiv. rewrite Rmult_assoc, Rinv_l by lra. lra.
  - apply (Rmult_le_reg_r den); [exact Hd|].
    unfold Rdiv. rewrite Rmult_assoc, Rinv_l by lra. lra.
Qed.

(** ** The constants of the test *)

Lemma exp_m1_bounds : 0.367879 <= exp_m1 <= 0.367882.
Proof.
  unfold exp_m1. pose proof (exp_neg_bounds 1 ltac:(lra)) as [Hl Hu].
  unfold exp_poly9, exp_poly8 in *. lra.
Qed.

Lemma exp_mhalf_bounds : 0.606530 <= exp_mhalf <= 0.606531.
Proof.
  unfold exp_mhalf. pose proof (exp_neg_bounds (1 / 2) ltac:(lra)) as [Hl Hu].
  unfold exp_poly9, exp_poly8 in *. lra.
Qed.

Lemma exp_m32 : exp (- (3 / 2)) = exp_m1 * exp_mhalf.
Proof. unfold exp_m1, exp_mhalf. rewrite <- exp_plus. f_equal. lra. Qed.

Lemma exp_m2 : exp (- (2)) = exp_m1 * exp_m1.
Proof. unfold exp_m1. rewrite <- exp_plus. f_equal. lra. Qed.

Lemma softplus_m1_bounds : 0.3132 <= softplus_m1 <= 0.3133.
Proof.
  unfold softplus_m1, softplus. fold exp_m1. pose proof exp_m1_bounds. ln_bounds.
Qed.

Lemma softplus_mhalf_bounds : 0.4740 <= softplus_mhalf <= 0.4742.
Proof.
  unfold softplus_mhalf, softplus. fold exp_mhalf. pose proof exp_mhalf_bounds.
  ln_bounds.
Qed.

Lemma softplus_m32_bounds : 0.2013 <= softplus_m32 <= 0.2015.
Proof.
  unfold softplus_m32, softplus. rewrite exp_m32.
  pose proof exp_m1_bounds. pose proof exp_mhalf_bounds.
  assert (0.22312 <= exp_m1 * exp_mhalf <= 0.22314) by nra.
  ln_bounds.
Qed.

Lemma softplus_m2_bounds : 0.1268 <= softplus_m2 <= 0.1270.
Proof.
  unfold softplus_m2, softplus. rewrite exp_m2. pose proof exp_m1_bounds.
  assert (0.135334 <= exp_m1 * exp_m1 <= 0.135338) by nra.
  ln_bounds.
Qed.

Lemma ln2_bounds : 0.6931 <= ln 2 <= 0.6932.
Proof. ln_bounds. Qed.

(** ** The loss *)

Import loss_functions.

(** The identity the specification asks the implementation to use. *)
Lemma logsigmoid_softplus (x : R) : logsigmoid x = - softplus (- x).
Proof.
  unfold logsigmoid, sigmoid, softplus. pose proof (exp_pos (- x)).
  unfold Rdiv. rewrite Rmult_1_l. apply ln_Rinv. lra.
Qed.

Lemma softplus_shift (x : R) : softplus x = x + softplus (- x).
Proof.
  unfold softplus.
  pose proof (exp_pos x) as Hx. pose proof (exp_pos (- x)) as Hn.
  replace (1 + exp x) with (exp x * (1 + exp (- x))).
  - rewrite ln_mult by lra. now rewrite ln_exp.
  - rewrite exp_Ropp. field. lra.
Qed.

Lemma sum_app (l1 l2 : list R) : torch.sum (l1 ++ l2) = torch.sum l1 + torch.sum l2.
Proof.
  unfold torch.sum. induction l1 as [|x l1 IH]; simpl; [lra | rewrite IH; lra].
Qed.

Lemma sum_concat (gs : list (list R)) :
  torch.sum (concat gs) = torch.sum (map torch.sum gs).
Proof.
  induction gs as [|g gs IH]; simpl; [reflexivity|].
  rewrite sum_app, IH. reflexivity.
Qed.

Lemma sum_map_div {A : Type} (f : A -> R) (z : R) (l : list A) :
  torch.sum (map (fun s => f s / z) l) = torch.sum (map f l) / z.
Proof.
  unfold torch.sum. induction l as [|x l IH]; simpl; [lra | rewrite IH; lra].
Qed.

Lemma sum_exp_pos (T : R) (grp : list R) :
  grp <> [] -> 0 < torch.sum (map (fun s => exp (T * s)) grp).
Proof.
  intros Hne. destruct grp as [|s grp]; [contradiction|]. clear Hne.
  assert (H : forall l, 0 <= torch.sum (map (fun s => exp (T * s)) l)).
  { induction l as [|x l IH]; simpl; [unfold torch.sum; simpl; lra|].
    pose proof (exp_pos (T * x)). unfold torch.sum in *. simpl. lra. }
  specialize (H grp). pose proof (exp_pos (T * s)). unfold torch.sum in *. simpl. lra.
Qed.

(** The weights of a group sum to 1. *)
Lemma softmax_sum (T : R) (grp : list R) :
  grp <> [] -> torch.sum (softmax T grp) = 1.
Proof.
  intros Hne. unfold softmax. rewrite sum_map_div.
  pose proof (sum_exp_pos T grp Hne). field. lra.
Qed.

Lemma softmax_length (T : R) (grp : list R) : length (softmax T grp) = length grp.
Proof. unfold softmax. apply length_map. Qed.

Lemma length_concat_same (n : nat) (gs : list (list R)) :
  Forall (fun g => length g = n) gs -> length (concat gs) = (length gs * n)%nat.
Proof.
  induction 1 as [|g gs Hg _ IH]; simpl; [reflexivity|].
  rewrite length_app, IH, Hg. reflexivity.
Qed.

Lemma sum_map_mean (n : nat) (gs : list (list R)) :
  Forall (fun g => length g = n) gs ->
  torch.sum (map torch.mean gs) = torch.sum (map torch.sum gs) / INR n.
Proof.
  induction 1 as [|g gs Hg _ IH]; simpl.
  - unfold torch.sum; simpl. lra.
  - unfold torch.sum in *; simpl. rewrite IH. unfold torch.mean, torch.sum.
    rewrite Hg. lra.
Qed.

(** For groups of one size, the mean of the means of the groups is the
    mean over all the entries. *)
Lemma mean_of_means (n : nat) (gs : list (list R)) :
  Forall (fun g => length g = n) gs ->
  torch.mean (map torch.mean gs) = torch.mean (concat gs).
Proof.
  intros H. unfold torch.mean at 1 3.
  rewrite (sum_map_mean n gs H), sum_concat, (length_concat_same n gs H), length_map.
  rewrite mult_INR. unfold Rdiv. rewrite Rinv_mult. ring.
Qed.

Lemma same_length_Forall (n : nat) (gs : list (list R)) :
  same_length n gs = true -> Forall (fun g => length g = n) gs.
Proof.
  unfold same_length. rewrite forallb_forall, Forall_forall.
  intros H g Hg. now apply Nat.eqb_eq, H.
Qed.

Lemma compatible_same_length (pos : list R) (neg : list (list R)) :
  compatible pos neg = true -> exists n, Forall (fun g => length g = n) neg.
Proof.
  unfold compatible. destruct neg as [|grp neg]; [discriminate|].
  intros H. apply andb_prop in H. destruct H as [H _].
  exists (length grp). now apply same_length_Forall.
Qed.

(** C4, amended: for positive scores and compatible negative scores the
    loss is minus the half of the sum of the mean over the positives of
    log (sigmoid (margin + pos_score)) and of the mean over all negatives
    of weight_j * log (sigmoid (- neg_score_j - margin)), where the weights
    are the softmax of the negative scores of a group scaled by the
    temperature and sum to 1 in every group that is not empty. *)
Theorem loss_formula (margin T : R) (pos : list R) (neg : list (list R)) :
  compatible pos neg = true ->
  forward margin T pos neg
  = ok (- (torch.mean (map (fun s => logsigmoid (margin + s)) pos)
           + torch.mean (concat (map (weighted_group margin T) neg))) / 2)
  /\ (forall grp, In grp neg -> grp <> [] -> torch.sum (softmax T grp) = 1).
Proof.
  intros Hc. split; [|intros grp _ Hne; now apply softmax_sum].
  unfold forward. rewrite Hc.
  destruct (compatible_same_length pos neg Hc) as [n Hn].
  rewrite (map2_map (map2 (fun w dist => w * logsigmoid (dist - margin)))).
  rewrite (map_ext (fun grp => map2 (fun w dist => w * logsigmoid (dist - margin))
                                   (softmax T grp) (map Ropp grp))
                   (weighted_group margin T))
    by (intros grp; unfold weighted_group;
        apply (map2_map_r (fun w dist => w * logsigmoid (dist - margin)) Ropp)).
  rewrite (mean_of_means n).
  - rewrite map_map.
    rewrite (map_ext (fun x => logsigmoid (margin - - x)) (fun s => logsigmoid (margin + s)))
      by (intros s; f_equal; lra).
    reflexivity.
  - rewrite Forall_map. eapply Forall_impl; [|exact Hn].
    intros grp Hg. unfold weighted_group.
    rewrite map2_length, softmax_length, Hg. apply Nat.min_id.
Qed.

Lemma loss_formula_witness :
  forward 1 1 [0; 0; -0.5; -0.5] [[0; 0; -1; -1]]
  = ok (- (torch.mean (map (fun s => logsigmoid (1 + s)) [0; 0; -0.5; -0.5])
           + torch.mean (concat (map (weighted_group 1 1) [[0; 0; -1; -1]]))) / 2)
  /\ (forall grp, In grp [[0; 0; -1; -1]] -> grp <> [] -> torch.sum (softmax 1 grp) = 1).
Proof.
  apply (loss_formula 1 1 [0; 0; -0.5; -0.5] [[0; 0; -1; -1]]). reflexivity.
Defined.

(** ** The loss at the input of the test *)

Lemma logsigmoid_1 (x : R) : x = 1 -> logsigmoid x = - softplus_m1.
Proof. intros ->. apply logsigmoid_softplus. Qed.

Lemma logsigmoid_half (x : R) : x = 1 / 2 -> logsigmoid x = - softplus_mhalf.
Proof. intros ->. apply logsigmoid_softplus. Qed.

Lemma logsigmoid_3_2 (x : R) : x = 3 / 2 -> logsigmoid x = - softplus_m32.
Proof. intros ->. apply logsigmoid_softplus. Qed.

Lemma logsigmoid_0 (x : R) : x = 0 -> logsigmoid x = - ln 2.
Proof.
  intros ->. rewrite logsigmoid_softplus. unfold softplus.
  rewrite Ropp_0, exp_0. replace (1 + 1) with 2 by lra. reflexivity.
Qed.

Lemma logsigmoid_m1 (x : R) : x = - (1) -> logsigmoid x = - (1 + softplus_m1).
Proof.
  intros ->. rewrite logsigmoid_softplus, Ropp_involutive, softplus_shift. reflexivity.
Qed.

Lemma logsigmoid_m2 (x : R) : x = - (2) -> logsigmoid x = - (2 + softplus_m2).
Proof.
  intros ->. rewrite logsigmoid_softplus, Ropp_involutive, softplus_shift. reflexivity.
Qed.

Ltac eval_logsigmoid :=
  repeat match goal with
         | |- context [logsigmoid ?x] =>
             first [ rewrite (logsigmoid_1 x) by lra
                   | rewrite (logsigmoid_half x) by lra
                   | rewrite (logsigmoid_3_2 x) by lra
                   | rewrite (logsigmoid_0 x) by lra
                   | rewrite (logsigmoid_m1 x) by lra
                   | rewrite (logsigmoid_m2 x) by lra ]
         end.

Ltac eval_exp :=
  repeat match goal with
         | |- context [exp ?x] =>
             first [ replace (exp x) with 1 by (rewrite <- exp_0; f_equal; lra)
                   | replace (exp x) with exp_m1 by (unfold exp_m1; f_equal; lra) ]
         end.

Import test_loss_functions.

Lemma forward_at_test_input :
  forward margin adversarial_temperature pos_scores [neg_scores] = ok model_value.
Proof.
  destruct (loss_formula margin adversarial_temperature pos_scores [neg_scores] eq_refl)
    as [-> _].
  unfold ok. f_equal.
  cbv [margin adversarial_temperature pos_scores neg_scores weighted_group softmax
       map map2 concat app torch.mean torch.sum fold_right length].
  eval_logsigmoid. eval_exp. unfold model_value. simpl INR.
  pose proof exp_m1_bounds. field. lra.
Qed.

Lemma specified_loss_at_test_input :
  specified_loss margin adversarial_temperature pos_scores [neg_scores] = specified_value.
Proof.
  cbv [specified_loss margin adversarial_temperature pos_scores neg_scores softmax
       map map2 concat app torch.mean torch.sum fold_right length].
  eval_logsigmoid. eval_exp. unfold specified_value. simpl INR.
  pose proof exp_m1_bounds. field. lra.
Qed.

Lemma model_value_bounds : 0.3400 <= model_value <= 0.3403.
Proof.
  unfold model_value.
  pose proof exp_m1_bounds as He. pose proof softplus_m1_bounds as Ha.
  pose proof softplus_mhalf_bounds as Hb. pose proof ln2_bounds as H2.
  assert (Hq : 1.146 <= (2 * (1 + softplus_m1) + 2 * exp_m1 * ln 2) / (2 + 2 * exp_m1)
               <= 1.147).
  { apply quotient_bounds; [lra | nra]. }
  lra.
Qed.

Lemma specified_value_bounds : 0.3201 <= specified_value <= 0.3203.
Proof.
  unfold specified_value.
  pose proof exp_m1_bounds as He. pose proof softplus_m1_bounds as Ha.
  pose proof softplus_m32_bounds as Hc. pose proof softplus_m2_bounds as Hd.
  assert (Hq : 1.5320 <= (2 * (1 + softplus_m1) + 2 * exp_m1 * (2 + softplus_m2))
                         / (2 + 2 * exp_m1) <= 1.5322).
  { apply quotient_bounds; [lra | nra]. }
  lra.
Qed.

(** The value the test computes by hand. *)
Lemma expected_loss_value : expected_loss = 0.3411.
Proof.
  cbv [expected_loss pos_loss neg_loss intermediate weights neg_log_sigmoids
       pos_log_sigmoids torch.mean torch.sum map2 fold_right length].
  simpl INR. lra.
Qed.

(** The two assertions of the test hold of the model of the loss. *)
Lemma test_assertions_hold :
  assertAlmostEqual expected_loss 0.34 0.02
  /\ assertAlmostEqual expected_loss model_value 0.02.
Proof.
  unfold assertAlmostEqual. rewrite expected_loss_value.
  pose proof model_value_bounds. split; apply Rabs_le; lra.
Qed.

(** The value of the formula of the specification is within 0.02 of 0.34
    as well. *)
Lemma specified_value_near_0_34 : Rabs (specified_value - 0.34) <= 0.02.
Proof. pose proof specified_value_bounds. apply Rabs_le. lra. Qed.

(** C5: for the positive scores (0, 0, -0.5, -0.5), the negative scores
    (0, 0, -1, -1), margin 1 and temperature 1 the loss returns a value
    within 0.02 of 0.34. *)
Theorem loss_sanity_value :
  exists loss : R,
    forward margin adversarial_temperature pos_scores [neg_scores] = ok loss
    /\ Rabs (loss - 0.34) <= 0.02.
Proof.
  exists model_value. split; [apply forward_at_test_input|].
  pose proof model_value_bounds. apply Rabs_le. lra.
Qed.

(** C4 as stated fails at the input of the test: the loss is not the
    value of the formula with [margin - pos_score] and
    [neg_score - margin], and that value is further than 0.02 from the
    value the test expects of the loss. *)
Lemma specified_loss_differs :
  forward margin adversarial_temperature pos_scores [neg_scores]
  <> ok (specified_loss margin adversarial_temperature pos_scores [neg_scores])
  /\ ~ assertAlmostEqual expected_loss
         (specified_loss margin adversarial_temperature pos_scores [neg_scores]) 0.02.
Proof.
  rewrite forward_at_test_input, specified_loss_at_test_input.
  pose proof model_value_bounds. pose proof specified_value_bounds. split.
  - intros Heq. injection Heq as Heq. lra.
  - unfold assertAlmostEqual. rewrite expected_loss_value. intros Habs.
    pose proof (Rle_abs (0.3411 - specified_value)). lra.
Qed.

(** ** Finite sums *)

Lemma rsum_ext (f g : nat -> R) (n : nat) :
  (forall i, (i < n)%nat -> f i = g i) -> rsum f n = rsum g n.
Proof.
  induction n as [|n IH]; intros H; simpl; [reflexivity|].
  rewrite IH by (intros i Hi; apply H; lia). rewrite (H n) by lia. reflexivity.
Qed.

Lemma rsum_plus (f g : nat -> R) (n : nat) :
  rsum (fun i => f i + g i) n = rsum f n + rsum g n.
Proof. induction n as [|n IH]; simpl; [lra | rewrite IH; lra]. Qed.

Lemma rsum_minus (f g : nat -> R) (n : nat) :
  rsum (fun i => f i - g i) n = rsum f n - rsum g n.
Proof. induction n as [|n IH]; simpl; [lra | rewrite IH; lra]. Qed.

Lemma rsum_opp (f : nat -> R) (n : nat) : rsum (fun i => - f i) n = - rsum f n.
Proof. induction n as [|n IH]; simpl; [lra | rewrite IH; lra]. Qed.

Lemma rsum_scal_l (c : R) (f : nat -> R) (n : nat) :
  rsum (fun i => c * f i) n = c * rsum f n.
Proof. induction n as [|n IH]; simpl; [lra | rewrite IH; lra]. Qed.

Lemma rsum_scal_r (c : R) (f : nat -> R) (n : nat) :
  rsum (fun i => f i * c) n = rsum f n * c.
Proof. induction n as [|n IH]; simpl; [lra | rewrite IH; lra]. Qed.

Lemma rsum_zero (n : nat) : rsum (fun _ => 0) n = 0.
Proof. induction n as [|n IH]; simpl; [lra | rewrite IH; lra]. Qed.

Lemma rsum_one (n : nat) : rsum (fun _ => 1) n = INR n.
Proof.
  induction n as [|n IH]; [reflexivity|].
  change (rsum (fun _ => 1) (S n)) with (rsum (fun _ => 1) n + 1).
  rewrite IH, S_INR. reflexivity.
Qed.

Lemma rsum_swap (f : nat -> nat -> R) (n m : nat) :
  rsum (fun i => rsum (fun j => f i j) m) n = rsum (fun j => rsum (fun i => f i j) n) m.
Proof.
  induction n as [|n IH]; simpl.
  - now rewrite rsum_zero.
  - rewrite IH, <- rsum_plus. reflexivity.
Qed.

Lemma rsum_delta (f : nat -> R) (c n : nat) :
  (c < n)%nat -> rsum (fun m => if (m =? c)%nat then f m else 0) n = f c.
Proof.
  induction n as [|n IH]; intros Hc; [lia|]. simpl.
  destruct (Nat.eqb_spec n c) as [->|Hne].
  - rewrite (rsum_ext _ (fun _ => 0)), rsum_zero; [lra|].
    intros i Hi. destruct (Nat.eqb_spec i c); [lia | reflexivity].
  - rewrite IH by lia. lra.
Qed.

(** ** The sum of the d-th roots of unity *)

Lemma dirichlet (x : R) (N : nat) :
  2 * sin (x / 2) * rsum (fun k => cos (INR k * x)) N
  = sin ((INR N - 1 / 2) * x) + sin (x / 2).
Proof.
  induction N as [|N IH].
  - simpl. replace ((0 - 1 / 2) * x) with (- (x / 2)) by lra. rewrite sin_neg. lra.
  - change (rsum (fun k => cos (INR k * x)) (S N))
      with (rsum (fun k => cos (INR k * x)) N + cos (INR N * x)).
    rewrite Rmult_plus_distr_l, IH, S_INR.
    replace ((INR N + 1 - 1 / 2) * x) with (INR N * x + x / 2) by lra.
    replace ((INR N - 1 / 2) * x) with (INR N * x - x / 2) by lra.
    rewrite sin_plus, sin_minus. ring.
Qed.

Lemma sin_shift_period (y : R) (s m : nat) :
  sin (y + 2 * INR s * PI - 2 * INR m * PI) = sin y.
Proof.
  rewrite <- (sin_period (y + 2 * INR s * PI - 2 * INR m * PI) m).
  replace (y + 2 * INR s * PI - 2 * INR m * PI + 2 * INR m * PI)
    with (y + 2 * INR s * PI) by ring.
  apply sin_period.
Qed.

Lemma roots_of_unity_sum (d s m : nat) :
  (0 < d)%nat -> (m < d)%nat ->
  rsum (fun k => cos (INR k * (2 * PI * (INR s - INR m) / INR d))) d
  = if (m =? s mod d)%nat then INR d else 0.
Proof.
  intros Hd Hm.
  assert (Hd0 : INR d <> 0) by (apply not_0_INR; lia).
  destruct (Nat.eqb_spec m (s mod d)) as [Heq|Hne].
  - transitivity (rsum (fun _ => 1) d); [|apply rsum_one].
    apply rsum_ext. intros k _.
    pose proof (Nat.div_mod_eq s d) as Hs. rewrite <- Heq in Hs.
    replace (INR k * (2 * PI * (INR s - INR m) / INR d))
      with (0 + 2 * INR (k * (s / d)) * PI).
    + rewrite cos_period. apply cos_0.
    + rewrite Hs at 2. rewrite plus_INR, !mult_INR. field. exact Hd0.
  - set (x := 2 * PI * (INR s - INR m) / INR d).
    pose proof (dirichlet x d) as HD.
    assert (Hsin : sin ((INR d - 1 / 2) * x) = - sin (x / 2)).
    { replace ((INR d - 1 / 2) * x)
        with (- (x / 2) + 2 * INR s * PI - 2 * INR m * PI)
        by (unfold x; field; exact Hd0).
      rewrite sin_shift_period. apply sin_neg. }
    rewrite Hsin in HD.
    assert (Hnz : sin (x / 2) <> 0).
    { intros H0. apply sin_eq_0_0 in H0. destruct H0 as [q Hq].
      assert (Hz : (Z.of_nat s - Z.of_nat m = q * Z.of_nat d)%Z).
      { apply eq_IZR. rewrite minus_IZR, mult_IZR, <- !INR_IZR_INZ.
        unfold x in Hq. pose proof PI_RGT_0 as Hpi.
        apply (Rmult_eq_reg_r (PI / INR d)).
        - transitivity (2 * PI * (INR s - INR m) / INR d / 2); [field; exact Hd0|].
          rewrite Hq. field. exact Hd0.
        - intros Hc. apply Rmult_integral in Hc. destruct Hc as [Hc|Hc]; [lra|].
          apply Rinv_neq_0_compat in Hd0. contradiction. }
      apply Hne.
      assert (Hmod : (Z.of_nat s mod Z.of_nat d = Z.of_nat m)%Z).
      { replace (Z.of_nat s) with (Z.of_nat m + q * Z.of_nat d)%Z by lia.
        rewrite Z.mod_add by lia. apply Z.mod_small. lia. }
      rewrite <- Nat2Z.inj_mod in Hmod. apply Nat2Z.inj in Hmod. lia. }
    assert (H2 : 2 * sin (x / 2) <> 0) by lra.
    apply (Rmult_eq_reg_l (2 * sin (x / 2))); [|exact H2].
    rewrite HD. ring.
Qed.

(** ** The correlation theorem *)

Lemma nth_map_seq {A : Type} (f : nat -> A) (d k : nat) (def : A) :
  (k < d)%nat -> nth k (map f (seq 0 d)) def = f k.
Proof.
  intros Hk. rewrite (nth_indep _ def (f 0%nat)) by (rewrite length_map, length_seq; lia).
  rewrite map_nth, seq_nth by lia. reflexivity.
Qed.

Lemma nth_map2 {A B C : Type} (f : A -> B -> C) (l1 : list A) (l2 : list B)
    (k : nat) (da : A) (db : B) (dc : C) :
  (k < length l1)%nat -> (k < length l2)%nat ->
  nth k (map2 f l1 l2) dc = f (nth k l1 da) (nth k l2 db).
Proof.
  revert l2 k; induction l1 as [|x l1 IH]; intros [|y l2] k H1 H2; simpl in *; try lia.
  destruct k as [|k]; [reflexivity|]. apply IH; lia.
Qed.

Lemma nth_map_lt {A B : Type} (f : A -> B) (l : list A) (k : nat) (da : A) (db : B) :
  (k < length l)%nat -> nth k (map f l) db = f (nth k l da).
Proof.
  intros Hk. rewrite (nth_indep _ db (f da)) by (rewrite length_map; lia).
  apply map_nth.
Qed.

Lemma rsum_product (f g : nat -> R) (n m : nat) :
  rsum (fun i => rsum (fun j => f i * g j) m) n = rsum f n * rsum g m.
Proof.
  rewrite (rsum_ext _ (fun i => f i * rsum g m)) by (intros; apply rsum_scal_l).
  apply rsum_scal_r.
Qed.

Lemma rsum_bilinear (f1 f2 g1 g2 : nat -> R) (p q : R) (n m : nat) :
  rsum (fun i => rsum (fun j =>
          (f1 i * g1 j + f2 i * g2 j) * p - (f2 i * g1 j - f1 i * g2 j) * q) m) n
  = (rsum f1 n * rsum g1 m + rsum f2 n * rsum g2 m) * p
    - (rsum f2 n * rsum g1 m - rsum f1 n * rsum g2 m) * q.
Proof.
  rewrite (rsum_ext _ (fun i => (f1 i * rsum g1 m + f2 i * rsum g2 m) * p
                                - (f2 i * rsum g1 m - f1 i * rsum g2 m) * q)).
  - rewrite rsum_minus, !rsum_scal_r, rsum_plus, rsum_minus, !rsum_scal_r. reflexivity.
  - intros i _.
    rewrite rsum_minus, !rsum_scal_r, rsum_plus, rsum_minus, !rsum_scal_l. reflexivity.
Qed.

Lemma rfft_row_nth (x : list R) (k : nat) :
  (k < length x)%nat ->
  nth k (torch.rfft_row x) (0, 0)
  = (rsum (fun n => nth n x 0 * cos (torch.theta (length x) k n)) (length x),
     - rsum (fun n => nth n x 0 * sin (torch.theta (length x) k n)) (length x)).
Proof.
  intros Hk. unfold torch.rfft_row. rewrite nth_map_seq by exact Hk.
  now rewrite rsum_opp.
Qed.

Lemma theta_combined (d k n j m : nat) :
  (0 < d)%nat ->
  torch.theta d k n - torch.theta d k m + torch.theta d k j
  = INR k * (2 * PI * (INR (n + j) - INR m) / INR d).
Proof.
  intros Hd. unfold torch.theta. rewrite plus_INR, !mult_INR. field.
  apply not_0_INR. lia.
Qed.

(** One frequency of the Hadamard product, turned back by the angle of
    the inverse transform, as a double sum over the two signals. *)
Lemma hadamard_frequency (a b : list R) (k j : nat) :
  length a = length b -> (k < length a)%nat -> (j < length a)%nat ->
  let d := length a in
  let p := hadamard (map conjugate (torch.rfft_row a)) (torch.rfft_row b) in
  fst (nth k p (0, 0)) * cos (torch.theta d k j)
  - snd (nth k p (0, 0)) * sin (torch.theta d k j)
  = rsum (fun n => rsum (fun m =>
            nth n a 0 * nth m b 0
            * cos (INR k * (2 * PI * (INR (n + j) - INR m) / INR d))) d) d.
Proof.
  intros Hlen Hk Hj d p. subst p. unfold hadamard.
  rewrite (nth_map2 cmul _ _ k (0, 0) (0, 0))
    by (rewrite ?length_map, rfft_row_length; lia).
  rewrite (nth_map_lt conjugate _ k (0, 0)) by (rewrite rfft_row_length; lia).
  rewrite !rfft_row_nth by lia. rewrite <- Hlen. fold d.
  unfold cmul, conjugate. cbn [fst snd]. symmetry.
  rewrite (rsum_ext (fun n => rsum (fun m =>
             nth n a 0 * nth m b 0
             * cos (INR k * (2 * PI * (INR (n + j) - INR m) / INR d))) d)
           (fun n => rsum (fun m =>
      ((nth n a 0 * cos (torch.theta d k n)) * (nth m b 0 * cos (torch.theta d k m))
       + (nth n a 0 * sin (torch.theta d k n)) * (nth m b 0 * sin (torch.theta d k m)))
      * cos (torch.theta d k j)
      - ((nth n a 0 * sin (torch.theta d k n)) * (nth m b 0 * cos (torch.theta d k m))
         - (nth n a 0 * cos (torch.theta d k n)) * (nth m b 0 * sin (torch.theta d k m)))
        * sin (torch.theta d k j)) d)).
  - rewrite (rsum_bilinear
               (fun n => nth n a 0 * cos (torch.theta d k n))
               (fun n => nth n a 0 * sin (torch.theta d k n))
               (fun m => nth m b 0 * cos (torch.theta d k m))
               (fun m => nth m b 0 * sin (torch.theta d k m))).
    ring.
  - intros n _. apply rsum_ext. intros m _.
    rewrite <- (theta_combined d k n j m) by (unfold d; lia).
    rewrite cos_plus, cos_minus, sin_minus. ring.
Qed.

(** What the specification describes is consistent: for two vectors of
    one length, of any size, the frequency-domain computation with the
    complex Hadamard product is the direct circular correlation.  (The code
    forms another product, see [composite_versus_direct_at_unit_rows].) *)
Theorem spectral_correlation_correct (a b : list R) :
  length a = length b -> spectral_correlation a b = circular_correlation a b.
Proof.
  intros Hlen. unfold spectral_correlation, circular_correlation, torch.irfft_row.
  assert (Hp : length (hadamard (map conjugate (torch.rfft_row a)) (torch.rfft_row b))
               = length a).
  { unfold hadamard. rewrite map2_length, length_map, !rfft_row_length, <- Hlen.
    apply Nat.min_id. }
  rewrite Hp. set (d := length a). apply map_ext_in. intros j Hj.
  apply in_seq in Hj. assert (Hjd : (j < d)%nat) by lia.
  assert (Hd : (0 < d)%nat) by lia.
  assert (Hd0 : INR d <> 0) by (apply not_0_INR; lia).
  rewrite (rsum_ext _ (fun k => rsum (fun n => rsum (fun m =>
             nth n a 0 * nth m b 0
             * cos (INR k * (2 * PI * (INR (n + j) - INR m) / INR d))) d) d))
    by (intros k Hk; apply (hadamard_frequency a b k j Hlen Hk Hjd)).
  rewrite rsum_swap.
  rewrite (rsum_ext _ (fun n => nth n a 0 * nth ((n + j) mod d) b 0 * INR d)).
  - rewrite rsum_scal_r. field. exact Hd0.
  - intros n _. rewrite rsum_swap.
    rewrite (rsum_ext _ (fun m => if (m =? (n + j) mod d)%nat
                                  then nth n a 0 * nth m b 0 * INR d else 0)).
    + apply (rsum_delta (fun m => nth n a 0 * nth m b 0 * INR d)).
      apply Nat.mod_upper_bound. lia.
    + intros m Hm. rewrite rsum_scal_l.
      rewrite (roots_of_unity_sum d (n + j) m Hd Hm).
      destruct (m =? (n + j) mod d)%nat; ring.
Qed.

(** The model [unit_rows] is the one a construction with its two tables
    supplied returns. *)
Lemma unit_rows_constructed (g : Generator) :
  fst (__init__ {| num_entities := 2; num_relations := 1 |}
         (Some (entity_embeddings unit_rows)) (Some (relation_embeddings unit_rows))
         4 None g)
  = unit_rows.
Proof. reflexivity. Qed.

(** * Further properties of the forward passes and of the construction *)

(** ** Head and tail in the product of the two transforms *)

Lemma mul_neg_imag_comm (a b : torch.re_im) :
  torch.mul_re_im (torch.neg_imag a) b = torch.mul_re_im (torch.neg_imag b) a.
Proof. unfold torch.mul_re_im, torch.neg_imag; simpl. f_equal; ring. Qed.

Lemma mul_row_neg_imag_comm (a b : list torch.re_im) :
  torch.mul_row (map torch.neg_imag a) b = torch.mul_row (map torch.neg_imag b) a.
Proof.
  unfold torch.mul_row. revert b; induction a as [|x a IH]; intros [|y b]; simpl;
    try reflexivity.
  now rewrite mul_neg_imag_comm, IH.
Qed.

Lemma composite_spectrum_comm (h t : list R) :
  composite_spectrum h t = composite_spectrum t h.
Proof. unfold composite_spectrum. apply mul_row_neg_imag_comm. Qed.

Lemma p_fft_comm (h t : list (list R)) :
  map2 torch.mul_row (map (map torch.neg_imag) (map torch.rfft_row h))
       (map torch.rfft_row t)
  = map2 torch.mul_row (map (map torch.neg_imag) (map torch.rfft_row t))
         (map torch.rfft_row h).
Proof.
  revert t; induction h as [|x h IH]; intros [|y t]; simpl; try reflexivity.
  now rewrite mul_row_neg_imag_comm, IH.
Qed.

(** A lookup has one way to fail. *)
Lemma mapM_error {A B : Type} (f : A -> result B) (l : list A) (e0 e : error) :
  (forall x e', f x = inl e' -> e' = e0) -> mapM f l = inl e -> e = e0.
Proof.
  intros Hf. induction l as [|x l IH]; simpl; [discriminate|].
  destruct (f x) as [e'|y] eqn:Hx; simpl.
  - intros H. injection H as <-. now apply (Hf x).
  - destruct (mapM f l) as [e'|ys]; simpl; [|discriminate].
    intros H. injection H as <-. now apply IH.
Qed.

Lemma lookup_error (E : nn.Embedding) (i : Z) (e : error) :
  nn.lookup E i = inl e -> e = IndexError.
Proof.
  unfold nn.lookup. destruct (0 <=? i)%Z; [|intros H; now injection H].
  destruct (nth_error (nn.weight E) (Z.to_nat i)); [discriminate|].
  intros H; now injection H.
Qed.

Lemma forward_error (E : nn.Embedding) (indices : list Z) (e : error) :
  nn.forward E indices = inl e -> e = IndexError.
Proof. apply mapM_error. intros x e'. apply lookup_error. Qed.

(** X1: the scores of [forward_owa] do not depend on the direction of
    the triples: the batch with head and tail exchanged in every row gets
    the same result, score for score and error for error.  (The product of
    the two transforms multiplies real parts together and imaginary parts
    together, which is symmetric in its two arguments.) *)
Theorem forward_owa_head_tail_symmetry (self : HolE) (batch : list (Z * Z * Z)) :
  forward_owa self (map swap_head_tail batch) = forward_owa self batch.
Proof.
  unfold forward_owa. rewrite !map_map. unfold swap_head_tail. cbn [fst snd].
  destruct (nn.forward (entity_embeddings self) (map (fun x => fst (fst x)) batch))
    as [eh|h] eqn:Hh;
  destruct (nn.forward (relation_embeddings self) (map (fun x => snd (fst x)) batch))
    as [er|r] eqn:Hr;
  destruct (nn.forward (entity_embeddings self) (map (fun x => snd x) batch))
    as [et|t] eqn:Ht; simpl;
  repeat match goal with
         | H : nn.forward _ _ = inl _ |- _ => apply forward_error in H; subst
         end; try reflexivity.
  destruct h as [|h0 h], t as [|t0 t]; try reflexivity.
  rewrite !rfft_ok by discriminate. cbn [bind ok].
  now rewrite p_fft_comm.
Qed.

(** X2: the all-heads scores of the pairs (relation, entity) are the
    all-tails scores of the pairs (entity, relation): [forward_inverse_cwa]
    on the batch with its two columns exchanged returns what [forward_cwa]
    returns. *)
Theorem all_heads_equals_all_tails (self : HolE) (batch : list (Z * Z)) :
  forward_inverse_cwa self (map swap_pair batch) = forward_cwa self batch.
Proof.
  unfold forward_inverse_cwa, forward_cwa. rewrite !map_map. unfold swap_pair.
  cbn [fst snd].
  destruct (nn.forward (entity_embeddings self) (map fst batch)) as [eh|h] eqn:Hh;
  destruct (nn.forward (relation_embeddings self) (map snd batch)) as [er|r] eqn:Hr;
    simpl;
  repeat match goal with
         | H : nn.forward _ _ = inl _ |- _ => apply forward_error in H; subst
         end; try reflexivity.
  destruct h as [|h0 h];
    [destruct (nn.weight (entity_embeddings self)); reflexivity|].
  destruct (nn.weight (entity_embeddings self)) as [|w ws] eqn:Hw; [reflexivity|].
  rewrite <- Hw. remember (h0 :: h) as hs eqn:Hhs.
  rewrite !rfft_ok by (rewrite ?Hw, ?Hhs; discriminate). cbn [bind ok]. rewrite !map_map.
  replace (map (fun t_i => map (fun h_j => torch.mul_row h_j (torch.rfft_row t_i))
                               (map (fun x => map torch.neg_imag (torch.rfft_row x))
                                    (nn.weight (entity_embeddings self)))) hs)
    with (map (fun x => map (fun t_j => torch.mul_row
                                          (map torch.neg_imag (torch.rfft_row x)) t_j)
                            (map torch.rfft_row (nn.weight (entity_embeddings self)))) hs).
  - reflexivity.
  - apply map_ext. intros x. rewrite !map_map. apply map_ext. intros y.
    apply mul_row_neg_imag_comm.
Qed.

(** ** Indices out of range *)

Lemma forward_invalid (E : nn.Embedding) (indices : list Z) :
  wf_embedding E -> Exists (fun i => ~ valid_index E i) indices ->
  nn.forward E indices = raise IndexError.
Proof.
  intros Hwf Hex. unfold nn.forward.
  induction Hex as [i l Hi | i l Hex IH]; simpl.
  - rewrite (lookup_invalid E i Hwf Hi). reflexivity.
  - destruct (nn.lookup E i) as [e|row0] eqn:Hl; simpl.
    + apply lookup_error in Hl. now subst.
    + rewrite IH. reflexivity.
Qed.

Lemma valid_index_dec (E : nn.Embedding) (i : Z) : {valid_index E i} + {~ valid_index E i}.
Proof.
  unfold valid_index.
  destruct (Z_le_dec 0 i); [|right; lia].
  destruct (Z_lt_dec i (Z.of_nat (nn.num_embeddings E))); [left; lia | right; lia].
Qed.

Lemma forward_valid_or_error (E : nn.Embedding) (indices : list Z) :
  wf_embedding E ->
  (Forall (valid_index E) indices /\ nn.forward E indices = ok (map (row E) indices))
  \/ (Exists (fun i => ~ valid_index E i) indices
      /\ nn.forward E indices = raise IndexError).
Proof.
  intros Hwf.
  destruct (Forall_Exists_dec (valid_index E) (valid_index_dec E) indices) as [Hall|Hex].
  - left. split; [exact Hall | now apply forward_valid].
  - right. split; [exact Hex | now apply forward_invalid].
Qed.

Lemma valid_triple_dec (self : HolE) (x : Z * Z * Z) :
  {valid_triple self x} + {~ valid_triple self x}.
Proof.
  unfold valid_triple.
  destruct (valid_index_dec (entity_embeddings self) (fst (fst x))); [|right; tauto].
  destruct (valid_index_dec (relation_embeddings self) (snd (fst x))); [|right; tauto].
  destruct (valid_index_dec (entity_embeddings self) (snd x)); [left; tauto | right; tauto].
Qed.

Lemma forward_owa_invalid (self : HolE) (batch : list (Z * Z * Z)) :
  wf_model self ->
  Exists (fun x => ~ valid_triple self x) batch ->
  forward_owa self batch = raise IndexError.
Proof.
  intros (HE & HR & _) Hex. unfold forward_owa.
  destruct (forward_valid_or_error (entity_embeddings self)
              (map (fun x => fst (fst x)) batch) HE) as [[Vh ->]|[_ ->]];
    [|reflexivity].
  destruct (forward_valid_or_error (relation_embeddings self)
              (map (fun x => snd (fst x)) batch) HR) as [[Vr ->]|[_ ->]];
    [|reflexivity].
  destruct (forward_valid_or_error (entity_embeddings self)
              (map (fun x => snd x) batch) HE) as [[Vt ->]|[_ ->]];
    [|reflexivity].
  exfalso. rewrite Forall_map in Vh, Vr, Vt.
  rewrite Forall_forall in Vh, Vr, Vt. apply Exists_exists in Hex.
  destruct Hex as (x & Hin & Hx). apply Hx. unfold valid_triple. auto.
Qed.

(** A well-formed model rejects the batch without rows, scores a batch
    of valid triples, or raises [IndexError]: the last exactly when some
    index of the batch is out of range. *)
Lemma forward_owa_cases (self : HolE) (batch : list (Z * Z * Z)) :
  wf_model self ->
  (batch = [] /\ forward_owa self batch = raise RuntimeError)
  \/ (batch <> [] /\ Forall (valid_triple self) batch
      /\ forward_owa self batch
         = ok (map (fun x => [score_row (row (entity_embeddings self) (fst (fst x)))
                                        (row (relation_embeddings self) (snd (fst x)))
                                        (row (entity_embeddings self) (snd x))]) batch))
  \/ (Exists (fun x => ~ valid_triple self x) batch
      /\ forward_owa self batch = raise IndexError).
Proof.
  intros wf. destruct batch as [|x0 batch].
  - left. split; reflexivity.
  - right.
    destruct (Forall_Exists_dec (valid_triple self) (valid_triple_dec self) (x0 :: batch))
      as [V|E].
    + left. split; [discriminate|]. split; [exact V|].
      apply forward_owa_rows; [exact wf | discriminate | exact V].
    + right. split; [exact E | now apply forward_owa_invalid].
Qed.

(** X3: for a well-formed model, [forward_owa] raises [IndexError]
    exactly when some head, relation or tail index of the batch is out of
    range, returns scores exactly when the batch has a row and every index
    is in range, and raises [RuntimeError] exactly on the batch without
    rows: no index is wrapped around or silently dropped. *)
Theorem forward_owa_index_error (self : HolE) (batch : list (Z * Z * Z)) :
  wf_model self ->
  ((exists x, In x batch /\ ~ valid_triple self x)
   <-> forward_owa self batch = raise IndexError)
  /\ (batch <> [] /\ Forall (valid_triple self) batch
      <-> exists scores, forward_owa self batch = ok scores)
  /\ (batch = [] <-> forward_owa self batch = raise RuntimeError).
Proof.
  intros wf.
  destruct (forward_owa_cases self batch wf) as [[Hnil Herr]|[(Hne & V & Hok)|[E Herr]]].
  - split; [|split]; split.
    + intros (x & Hin & _). subst batch. destruct Hin.
    + rewrite Herr. discriminate.
    + intros [Hne _]. contradiction.
    + intros (scores & Hs). rewrite Herr in Hs. discriminate.
    + intros _. exact Herr.
    + intros _. exact Hnil.
  - split; [|split]; split.
    + intros (x & Hin & Hx). exfalso. rewrite Forall_forall in V. now apply Hx, V.
    + rewrite Hok. discriminate.
    + intros _. eexists. exact Hok.
    + intros _. split; assumption.
    + intros Hnil. contradiction.
    + rewrite Hok. discriminate.
  - split; [|split]; split.
    + intros _. exact Herr.
    + intros _. now apply Exists_exists.
    + intros [_ V]. exfalso. apply Exists_exists in E. destruct E as (x & Hin & Hx).
      rewrite Forall_forall in V. now apply Hx, V.
    + intros (scores & Hs). rewrite Herr in Hs. discriminate.
    + intros Hnil. subst batch. inversion E.
    + rewrite Herr. discriminate.
Qed.

Lemma forward_owa_index_error_witness :
  ((exists x, In x [(0, 0, 2)%Z] /\ ~ valid_triple unit_rows x)
   <-> forward_owa unit_rows [(0, 0, 2)%Z] = raise IndexError)
  /\ ([(0, 0, 2)%Z] <> [] /\ Forall (valid_triple unit_rows) [(0, 0, 2)%Z]
      <-> exists scores, forward_owa unit_rows [(0, 0, 2)%Z] = ok scores)
  /\ ([(0, 0, 2)%Z] = [] <-> forward_owa unit_rows [(0, 0, 2)%Z] = raise RuntimeError).
Proof.
  apply (forward_owa_index_error unit_rows [(0, 0, 2)%Z]).
  unfold wf_model, wf_embedding; simpl. repeat split; repeat constructor.
Defined.

(** X4: for a well-formed model, [forward_cwa] and [forward_inverse_cwa]
    raise [IndexError] on a batch with an index out of range. *)
Theorem forward_cwa_index_error (self : HolE) (batch : list (Z * Z)) :
  wf_model self ->
  (Exists (fun x => ~ valid_head_relation self x) batch ->
   forward_cwa self batch = raise IndexError)
  /\ (Exists (fun x => ~ valid_relation_tail self x) batch ->
      forward_inverse_cwa self batch = raise IndexError).
Proof.
  intros (HE & HR & _). split; intros Hex.
  - unfold forward_cwa.
    destruct (forward_valid_or_error (entity_embeddings self) (map fst batch) HE)
      as [[Vh ->]|[_ ->]]; [|reflexivity].
    destruct (forward_valid_or_error (relation_embeddings self) (map snd batch) HR)
      as [[Vr ->]|[_ ->]]; [|reflexivity].
    exfalso. rewrite Forall_map in Vh, Vr. rewrite Forall_forall in Vh, Vr.
    apply Exists_exists in Hex. destruct Hex as (x & Hin & Hx).
    apply Hx. unfold valid_head_relation. auto.
  - unfold forward_inverse_cwa.
    destruct (forward_valid_or_error (relation_embeddings self) (map fst batch) HR)
      as [[Vr ->]|[_ ->]]; [|reflexivity].
    destruct (forward_valid_or_error (entity_embeddings self) (map snd batch) HE)
      as [[Vt ->]|[_ ->]]; [|reflexivity].
    exfalso. rewrite Forall_map in Vr, Vt. rewrite Forall_forall in Vr, Vt.
    apply Exists_exists in Hex. destruct Hex as (x & Hin & Hx).
    apply Hx. unfold valid_relation_tail. auto.
Qed.

Lemma forward_cwa_index_error_witness :
  forward_cwa unit_rows [(2, 0)%Z] = raise IndexError
  /\ forward_inverse_cwa unit_rows [(0, -1)%Z] = raise IndexError.
Proof.
  assert (wf : wf_model unit_rows)
    by (unfold wf_model, wf_embedding; simpl; repeat split; repeat constructor).
  split.
  - apply (proj1 (forward_cwa_index_error unit_rows [(2, 0)%Z] wf)).
    apply Exists_cons_hd. unfold valid_head_relation, valid_index; simpl. lia.
  - apply (proj2 (forward_cwa_index_error unit_rows [(0, -1)%Z] wf)).
    apply Exists_cons_hd. unfold valid_relation_tail, valid_index; simpl. lia.
Defined.

(** ** Shapes and batches *)

(** X5: for a well-formed model and a batch of valid indices that has at
    least one row, [forward_owa] returns one row of one score per triple,
    and [forward_cwa] and [forward_inverse_cwa] return one row of
    [num_embeddings] scores (one per entity) per pair. *)
Theorem forward_shapes (self : HolE) :
  wf_model self ->
  (forall batch, batch <> [] -> Forall (valid_triple self) batch ->
     exists scores, forward_owa self batch = ok scores
       /\ length scores = length batch
       /\ Forall (fun s => length s = 1%nat) scores)
  /\ (forall batch, batch <> [] -> Forall (valid_head_relation self) batch ->
        exists scores, forward_cwa self batch = ok scores
          /\ length scores = length batch
          /\ Forall (fun s => length s = nn.num_embeddings (entity_embeddings self))
                    scores)
  /\ (forall batch, batch <> [] -> Forall (valid_relation_tail self) batch ->
        exists scores, forward_inverse_cwa self batch = ok scores
          /\ length scores = length batch
          /\ Forall (fun s => length s = nn.num_embeddings (entity_embeddings self))
                    scores).
Proof.
  intros wf. pose proof wf as ((Hlen & _) & _).
  split; [|split]; intros batch Hne Hv; eexists.
  - rewrite (forward_owa_rows self wf batch Hne Hv).
    split; [reflexivity|]. split; [apply length_map|].
    rewrite Forall_map. apply Forall_forall. reflexivity.
  - rewrite (forward_cwa_rows self wf batch Hne Hv).
    split; [reflexivity|]. split; [apply length_map|].
    rewrite Forall_map. apply Forall_forall. intros x _. now rewrite length_map.
  - rewrite (forward_inverse_cwa_rows self wf batch Hne Hv).
    split; [reflexivity|]. split; [apply length_map|].
    rewrite Forall_map. apply Forall_forall. intros x _. now rewrite length_map.
Qed.

Lemma forward_shapes_witness :
  (forall batch, batch <> [] -> Forall (valid_triple unit_rows) batch ->
     exists scores, forward_owa unit_rows batch = ok scores
       /\ length scores = length batch
       /\ Forall (fun s => length s = 1%nat) scores)
  /\ (forall batch, batch <> [] -> Forall (valid_head_relation unit_rows) batch ->
        exists scores, forward_cwa unit_rows batch = ok scores
          /\ length scores = length batch
          /\ Forall (fun s => length s = nn.num_embeddings (entity_embeddings unit_rows))
                    scores)
  /\ (forall batch, batch <> [] -> Forall (valid_relation_tail unit_rows) batch ->
        exists scores, forward_inverse_cwa unit_rows batch = ok scores
          /\ length scores = length batch
          /\ Forall (fun s => length s = nn.num_embeddings (entity_embeddings unit_rows))
                    scores).
Proof.
  apply (forward_shapes unit_rows).
  unfold wf_model, wf_embedding; simpl. repeat split; repeat constructor.
Defined.

(** X6: for a well-formed model and two batches that each have a row,
    the scores of the two batches put together are the scores of the first
    followed by the scores of the second, and an error of either is the
    error of the whole. *)
Theorem forward_owa_app (self : HolE) (b1 b2 : list (Z * Z * Z)) :
  wf_model self ->
  b1 <> [] -> b2 <> [] ->
  forward_owa self (b1 ++ b2)
  = (s1 <- forward_owa self b1 ;; s2 <- forward_owa self b2 ;; ok (s1 ++ s2)).
Proof.
  intros wf Hb1 Hb2.
  assert (Hb : b1 ++ b2 <> []) by (destruct b1; [congruence | discriminate]).
  destruct (forward_owa_cases self b1 wf) as [[Hnil _]|[(_ & V1 & H1)|[E1 H1]]];
    [contradiction | |]; rewrite H1.
  - destruct (forward_owa_cases self b2 wf) as [[Hnil _]|[(_ & V2 & H2)|[E2 H2]]];
      [contradiction | |]; rewrite H2.
    + rewrite (forward_owa_rows self wf (b1 ++ b2) Hb) by (apply Forall_app; now split).
      simpl. now rewrite map_app.
    + rewrite (forward_owa_invalid self (b1 ++ b2) wf) by (apply Exists_app; now right).
      reflexivity.
  - rewrite (forward_owa_invalid self (b1 ++ b2) wf) by (apply Exists_app; now left).
    reflexivity.
Qed.

Lemma forward_owa_app_witness :
  forward_owa unit_rows ([(0, 0, 1)%Z] ++ [(1, 0, 0)%Z])
  = (s1 <- forward_owa unit_rows [(0, 0, 1)%Z] ;;
     s2 <- forward_owa unit_rows [(1, 0, 0)%Z] ;; ok (s1 ++ s2)).
Proof.
  apply (forward_owa_app unit_rows).
  - unfold wf_model, wf_embedding; simpl. repeat split; repeat constructor.
  - discriminate.
  - discriminate.
Defined.

(** ** Construction, then scoring *)

Lemma _init_embeddings_fields (tf : TriplesFactory) (dim : nat) (g : Generator) :
  nn.num_embeddings (fst (fst (_init_embeddings tf dim g))) = num_entities tf
  /\ nn.embedding_dim (fst (fst (_init_embeddings tf dim g))) = dim
  /\ nn.num_embeddings (snd (fst (_init_embeddings tf dim g))) = num_relations tf
  /\ nn.embedding_dim (snd (fst (_init_embeddings tf dim g))) = dim.
Proof.
  unfold _init_embeddings.
  pose proof (Embedding_new_shape (num_entities tf) dim g) as He.
  destruct (nn.Embedding_new (num_entities tf) dim g) as [entity g1]; simpl in He.
  pose proof (Embedding_new_shape (num_relations tf) dim g1) as Hr.
  destruct (nn.Embedding_new (num_relations tf) dim g1) as [relation g2]; simpl in Hr.
  destruct (nn.init.uniform_ (nn.weight entity) _ _ g2) as [we g3].
  destruct (nn.init.uniform_ (nn.weight relation) _ _ g3) as [wr g4].
  simpl. tauto.
Qed.

Lemma in_bound_wf (n d : nat) (b : R) (E : nn.Embedding) :
  in_bound n d b E -> nn.num_embeddings E = n -> nn.embedding_dim E = d ->
  wf_embedding E.
Proof.
  intros [Hl HF] Hn Hd. split; [congruence|].
  eapply Forall_impl; [|exact HF]. intros r [Hr _]. congruence.
Qed.

Lemma init_wf_model (tf : TriplesFactory) (entity relation : option nn.Embedding)
    (dim : nat) (crit : option Loss) (g : Generator) :
  entity = None \/ relation = None ->
  let self := fst (__init__ tf entity relation dim crit g) in
  wf_model self
  /\ nn.num_embeddings (entity_embeddings self) = num_entities tf
  /\ nn.num_embeddings (relation_embeddings self) = num_relations tf
  /\ embedding_dim self = dim.
Proof.
  intros H self.
  destruct (init_one_missing tf entity relation dim crit g H) as [He Hr].
  fold self in He, Hr.
  destruct (_init_embeddings_spec tf dim g) as [Be Br].
  destruct (_init_embeddings_fields tf dim g) as (F1 & F2 & F3 & F4).
  assert (Hd : embedding_dim self = dim).
  { unfold self, __init__. destruct entity as [e0|], relation as [r0|];
      try (destruct H; discriminate);
      destruct (_init_embeddings tf dim g) as [[e' r'] g']; reflexivity. }
  unfold wf_model. rewrite He, Hr, Hd.
  repeat split; try assumption.
  - apply (in_bound_wf _ _ _ _ Be F1 F2).
  - apply (in_bound_wf _ _ _ _ Be F1 F2).
  - apply (in_bound_wf _ _ _ _ Br F3 F4).
  - apply (in_bound_wf _ _ _ _ Br F3 F4).
Qed.

(** X7: a model built without its two tables scores every batch that has
    a row and whose indices are below the counts of the dataset, one row per
    triple: construction leaves the model ready for the forward pass.  (Such
    a batch exists only when the dataset has an entity and a relation.) *)
Theorem default_model_scores (tf : TriplesFactory) (dim : nat) (crit : option Loss)
    (g : Generator) (batch : list (Z * Z * Z)) :
  batch <> [] ->
  Forall (in_range_triple tf) batch ->
  exists scores,
    forward_owa (fst (__init__ tf None None dim crit g)) batch = ok scores
    /\ length scores = length batch.
Proof.
  intros Hne Hb.
  destruct (init_wf_model tf None None dim crit g (or_introl eq_refl))
    as (wf & Ne & Nr & _).
  eexists. rewrite (forward_owa_rows _ wf).
  - split; [reflexivity | apply length_map].
  - exact Hne.
  - eapply Forall_impl; [|exact Hb]. intros x (H1 & H2 & H3).
    unfold valid_triple, valid_index. rewrite Ne, Nr. tauto.
Qed.

Lemma default_model_scores_witness :
  exists scores,
    forward_owa (fst (__init__ one_of_each None None 1 None zero_draws)) [(0, 0, 0)%Z]
    = ok scores
    /\ length scores = length [(0, 0, 0)%Z].
Proof.
  apply (default_model_scores one_of_each 1 None zero_draws [(0, 0, 0)%Z]).
  - discriminate.
  - constructor; [|constructor]. unfold in_range_triple; simpl. lia.
Defined.

(** X8: as soon as one table is left out at construction, both tables of
    the model are new ones, of the shape and within the bound of the
    default initialization, whatever the table that was supplied. *)
Theorem missing_table_initializes_both (tf : TriplesFactory)
    (entity relation : option nn.Embedding) (dim : nat) (crit : option Loss)
    (g : Generator) :
  entity = None \/ relation = None ->
  in_bound (num_entities tf) dim (6 / sqrt (INR (num_entities tf + dim)))
           (entity_embeddings (fst (__init__ tf entity relation dim crit g)))
  /\ in_bound (num_relations tf) dim (6 / sqrt (INR (num_relations tf + dim)))
              (relation_embeddings (fst (__init__ tf entity relation dim crit g))).
Proof.
  intros H. destruct (init_one_missing tf entity relation dim crit g H) as [-> ->].
  apply _init_embeddings_spec.
Qed.

Lemma missing_table_initializes_both_witness :
  in_bound (num_entities one_of_each) 1 (6 / sqrt (INR (num_entities one_of_each + 1)))
           (entity_embeddings
              (fst (__init__ one_of_each (Some supplied_entities) None 1 None zero_draws)))
  /\ in_bound (num_relations one_of_each) 1
              (6 / sqrt (INR (num_relations one_of_each + 1)))
              (relation_embeddings
                 (fst (__init__ one_of_each (Some supplied_entities) None 1 None
                         zero_draws))).
Proof.
  apply (missing_table_initializes_both one_of_each (Some supplied_entities) None 1 None
           zero_draws).
  right. reflexivity.
Defined.

(** ** The norm of an initialized row *)

Lemma sum_squares_bound (b : R) (x : list R) :
  0 <= b -> Forall (fun v => - b <= v <= b) x ->
  torch.sum (map (fun v => v * v) x) <= INR (length x) * (b * b).
Proof.
  intros Hb H. unfold torch.sum. induction H as [|v x Hv _ IH].
  - simpl. lra.
  - change (length (v :: x)) with (S (length x)). rewrite S_INR. simpl.
    assert (v * v <= b * b) by nra. lra.
Qed.

Lemma init_norm_le_6 (n d : nat) (row0 : list R) :
  length row0 = d ->
  Forall (fun v => - (6 / sqrt (INR (n + d))) <= v <= 6 / sqrt (INR (n + d))) row0 ->
  norm row0 <= 6.
Proof.
  intros Hl HF. unfold norm.
  pose proof (sum_squares_bound _ row0 (init_bound_nonneg (INR (n + d))) HF) as Hs.
  rewrite Hl in Hs.
  pose proof (sum_squares_nonneg row0) as H0.
  destruct (Nat.eq_dec (n + d) 0) as [Hz|Hnz].
  - assert (Hd0 : d = 0%nat) by lia. rewrite Hd0 in Hs. simpl (INR 0) in Hs.
    replace (torch.sum (map (fun v => v * v) row0)) with 0 by lra.
    rewrite sqrt_0. lra.
  - assert (Hpos : 0 < INR (n + d)) by (apply lt_0_INR; lia).
    assert (Hb : 6 / sqrt (INR (n + d)) * (6 / sqrt (INR (n + d))) = 36 / INR (n + d)).
    { pose proof (sqrt_lt_R0 _ Hpos) as Hsq.
      replace (6 / sqrt (INR (n + d)) * (6 / sqrt (INR (n + d))))
        with (36 / (sqrt (INR (n + d)) * sqrt (INR (n + d)))) by (field; lra).
      rewrite sqrt_sqrt by lra. reflexivity. }
    rewrite Hb in Hs.
    assert (Hle : torch.sum (map (fun v => v * v) row0) <= 6 * 6).
    { eapply Rle_trans; [exact Hs|].
      assert (Hd : INR d <= INR (n + d)) by (apply le_INR; lia).
      pose proof (pos_INR d).
      apply (Rmult_le_reg_r (INR (n + d))); [exact Hpos|].
      replace (INR d * (36 / INR (n + d)) * INR (n + d)) with (36 * INR d)
        by (field; lra).
      lra. }
    rewrite <- (sqrt_square 6) by lra. apply sqrt_le_1; lra.
Qed.

(** X9: every row of the two tables of the default initialization has a
    Euclidean norm of at most 6. *)
Theorem default_initialization_norm (tf : TriplesFactory) (dim : nat)
    (crit : option Loss) (g : Generator) :
  let self := fst (__init__ tf None None dim crit g) in
  Forall (fun row0 => norm row0 <= 6) (nn.weight (entity_embeddings self))
  /\ Forall (fun row0 => norm row0 <= 6) (nn.weight (relation_embeddings self)).
Proof.
  intros self.
  destruct (init_one_missing tf None None dim crit g (or_introl eq_refl)) as [He Hr].
  fold self in He, Hr. rewrite He, Hr.
  destruct (_init_embeddings_spec tf dim g) as [[_ Be] [_ Br]].
  split.
  - eapply Forall_impl; [|exact Be]. intros r [Hl HF].
    now apply (init_norm_le_6 (num_entities tf) dim).
  - eapply Forall_impl; [|exact Br]. intros r [Hl HF].
    now apply (init_norm_le_6 (num_relations tf) dim).
Qed.

(** ** A model whose dimension is not the one of its tables *)

Lemma forward_owa_ignores_embedding_dim (self : HolE) (batch : list (Z * Z * Z)) :
  forward_owa self batch = forward_owa (with_table_dim self) batch.
Proof. reflexivity. Qed.

Lemma irfft_wrong_size (p0 : list torch.re_im) (p : list (list torch.re_im)) (s : nat) :
  length p0 <> s -> torch.irfft (p0 :: p) s = raise RuntimeError.
Proof.
  intros H. unfold torch.irfft. simpl.
  destruct (Nat.eqb_spec (length p0) s); [contradiction | reflexivity].
Qed.

Lemma nonempty_cons {A : Type} (l : list A) : l <> [] -> exists x xs, l = x :: xs.
Proof. destruct l as [|x xs]; [congruence | eauto]. Qed.

(** X10: when the tables are well formed, of one dimension, and that
    dimension is not the [embedding_dim] of the model, [forward_owa] (which
    takes [signal_sizes] from the gathered rows) still scores every valid
    batch that has a row, whereas [forward_cwa] and [forward_inverse_cwa]
    (which pass [self.embedding_dim]) raise a [RuntimeError] on every valid
    batch: the inverse transform rejects the size, and the batch without
    rows is rejected by the forward transform as in every model. *)
Theorem dimension_mismatch (self : HolE) :
  wf_tables self ->
  nn.embedding_dim (entity_embeddings self) <> embedding_dim self ->
  (forall batch, batch <> [] -> Forall (valid_triple self) batch ->
     exists scores, forward_owa self batch = ok scores /\ length scores = length batch)
  /\ (forall batch, Forall (valid_head_relation self) batch ->
        forward_cwa self batch = raise RuntimeError)
  /\ (forall batch, Forall (valid_relation_tail self) batch ->
        forward_inverse_cwa self batch = raise RuntimeError).
Proof.
  intros (HE & HR & HdR) Hne. split; [|split].
  - intros batch Hb Hv. rewrite forward_owa_ignores_embedding_dim.
    assert (wf : wf_model (with_table_dim self))
      by (unfold wf_model; simpl; split; [|split; [|split]]; auto).
    eexists. rewrite (forward_owa_rows _ wf) by assumption.
    split; [reflexivity | apply length_map].
  - intros [|x batch] Hv; [apply forward_cwa_nil|].
    unfold forward_cwa.
    rewrite (forward_valid (entity_embeddings self)), (forward_valid (relation_embeddings self));
      trivial;
      try (rewrite Forall_map; eapply Forall_impl; [|exact Hv];
           unfold valid_head_relation; intros y Hy; tauto).
    inversion Hv as [|x' b' [Hh _] _]; subst.
    pose proof (valid_index_nonempty _ _ HE Hh) as Hw0.
    destruct (nonempty_cons _ Hw0) as (w & ws & Hw).
    destruct (lookup_valid _ _ HE Hh) as (_ & _ & Lh).
    assert (Lw : length w = nn.embedding_dim (entity_embeddings self)).
    { destruct HE as [_ Hrows]. rewrite Hw in Hrows. now inversion Hrows. }
    cbn [bind ok]. rewrite !rfft_ok by first [exact Hw0 | discriminate].
    cbn [bind ok]. rewrite Hw. cbn [map mapM].
    rewrite irfft_wrong_size; [reflexivity|].
    change (length (composite_spectrum (row (entity_embeddings self) (fst x)) w)
            <> embedding_dim self).
    rewrite composite_spectrum_length, Lh, Lw, Nat.min_id. exact Hne.
  - intros [|x batch] Hv; [apply forward_inverse_cwa_nil|].
    unfold forward_inverse_cwa.
    rewrite (forward_valid (entity_embeddings self)), (forward_valid (relation_embeddings self));
      trivial;
      try (rewrite Forall_map; eapply Forall_impl; [|exact Hv];
           unfold valid_relation_tail; intros y Hy; tauto).
    inversion Hv as [|x' b' [_ Ht] _]; subst.
    pose proof (valid_index_nonempty _ _ HE Ht) as Hw0.
    destruct (nonempty_cons _ Hw0) as (w & ws & Hw).
    destruct (lookup_valid _ _ HE Ht) as (_ & _ & Lt).
    assert (Lw : length w = nn.embedding_dim (entity_embeddings self)).
    { destruct HE as [_ Hrows]. rewrite Hw in Hrows. now inversion Hrows. }
    cbn [bind ok]. rewrite !rfft_ok by first [exact Hw0 | discriminate].
    cbn [bind ok]. rewrite Hw. cbn [map mapM].
    rewrite irfft_wrong_size; [reflexivity|].
    change (length (composite_spectrum w (row (entity_embeddings self) (snd x)))
            <> embedding_dim self).
    rewrite composite_spectrum_length, Lt, Lw, Nat.min_id. exact Hne.
Qed.

Lemma dimension_mismatch_witness :
  (forall batch, batch <> [] -> Forall (valid_triple unit_rows_200) batch ->
     exists scores, forward_owa unit_rows_200 batch = ok scores
                    /\ length scores = length batch)
  /\ (forall batch, Forall (valid_head_relation unit_rows_200) batch ->
        forward_cwa unit_rows_200 batch = raise RuntimeError)
  /\ (forall batch, Forall (valid_relation_tail unit_rows_200) batch ->
        forward_inverse_cwa unit_rows_200 batch = raise RuntimeError).
Proof.
  apply (dimension_mismatch unit_rows_200).
  - unfold wf_tables, wf_embedding; simpl. repeat split; repeat constructor.
  - simpl. lia.
Defined.

(** ** The transform pair *)

Lemma list_as_map_nth (x : list R) : x = map (fun n => nth n x 0) (seq 0 (length x)).
Proof.
  apply (nth_ext _ _ 0 0).
  - now rewrite length_map, length_seq.
  - intros n Hn. now rewrite nth_map_seq.
Qed.

(** The inverse transform over all frequencies undoes the transform. *)
Lemma irfft_row_rfft_row (x : list R) : torch.irfft_row (torch.rfft_row x) = x.
Proof.
  rewrite (list_as_map_nth x) at 2.
  unfold torch.irfft_row. rewrite rfft_row_length.
  set (d := length x). apply map_ext_in. intros n Hn. apply in_seq in Hn.
  assert (Hnd : (n < d)%nat) by lia.
  assert (Hd : (0 < d)%nat) by lia.
  assert (Hd0 : INR d <> 0) by (apply not_0_INR; lia).
  rewrite (rsum_ext _ (fun k => rsum (fun m =>
             nth m x 0 * cos (INR k * (2 * PI * (INR n - INR m) / INR d))) d)).
  - rewrite rsum_swap.
    rewrite (rsum_ext _ (fun m => if (m =? n)%nat then nth m x 0 * INR d else 0)).
    + rewrite (rsum_delta (fun m => nth m x 0 * INR d)) by exact Hnd. field. exact Hd0.
    + intros m Hm. rewrite rsum_scal_l, (roots_of_unity_sum d n m Hd Hm).
      rewrite (Nat.mod_small n d Hnd). destruct (m =? n)%nat; ring.
  - intros k Hk. rewrite rfft_row_nth by exact Hk. fold d. cbn [fst snd].
    rewrite <- rsum_opp, <- !rsum_scal_r, <- rsum_minus.
    apply rsum_ext. intros m _.
    replace (INR k * (2 * PI * (INR n - INR m) / INR d))
      with (torch.theta d k n - torch.theta d k m)
      by (unfold torch.theta; rewrite !mult_INR; field; exact Hd0).
    rewrite cos_minus. ring.
Qed.

(** ** Conjugate symmetry and the half of the spectrum that is read *)

Lemma cos_sin_nPI (m : nat) : cos (INR m * PI) = (-1) ^ m /\ sin (INR m * PI) = 0.
Proof.
  induction m as [|m [IHc IHs]].
  - simpl. rewrite Rmult_0_l, cos_0, sin_0. split; reflexivity.
  - rewrite S_INR. replace ((INR m + 1) * PI) with (INR m * PI + PI) by ring.
    rewrite neg_cos, neg_sin, IHc, IHs. split; simpl; ring.
Qed.

Lemma rsum_shift (f : nat -> R) (n : nat) :
  rsum f (S n) = f 0%nat + rsum (fun i => f (S i)) n.
Proof.
  induction n as [|n IH]; [simpl; lra|].
  change (rsum f (S (S n))) with (rsum f (S n) + f (S n)).
  rewrite IH. simpl. lra.
Qed.

Lemma rsum_split (f : nat -> R) (a b : nat) :
  rsum f (a + b) = rsum f a + rsum (fun i => f (a + i)%nat) b.
Proof.
  induction b as [|b IH].
  - rewrite Nat.add_0_r. simpl. lra.
  - rewrite Nat.add_succ_r. simpl. rewrite IH. lra.
Qed.

Lemma rsum_rev (f : nat -> R) (n : nat) :
  rsum f n = rsum (fun i => f (n - 1 - i)%nat) n.
Proof.
  induction n as [|n IH]; [reflexivity|].
  rewrite (rsum_shift (fun i => f (S n - 1 - i)%nat)).
  change (rsum f (S n)) with (rsum f n + f n).
  rewrite IH.
  replace (S n - 1 - 0)%nat with n by lia.
  rewrite (rsum_ext (fun i => f (S n - 1 - S i)%nat) (fun i => f (n - 1 - i)%nat)).
  - lra.
  - intros i Hi. f_equal. lia.
Qed.

(** A sum whose terms read the same from both ends is twice its first
    half, plus the middle term when there is one. *)
Lemma rsum_palindrome (h : nat -> R) (N : nat) :
  (forall i, (i < N)%nat -> h (N - 1 - i)%nat = h i) ->
  rsum h N = 2 * rsum h (N / 2) + (if Nat.odd N then h (N / 2)%nat else 0).
Proof.
  intros Hsym.
  pose proof (Nat.div2_odd N) as HN. rewrite Nat.div2_div in HN.
  set (m := (N / 2)%nat) in *.
  destruct (Nat.odd N); simpl Nat.b2n in HN.
  - assert (E : N = (m + (1 + m))%nat) by lia.
    rewrite E at 1. rewrite rsum_split, (rsum_split _ 1 m).
    simpl (rsum _ 1). rewrite Nat.add_0_r.
    rewrite (rsum_rev (fun i => h (m + (1 + i))%nat) m).
    rewrite (rsum_ext (fun i => h (m + (1 + (m - 1 - i)))%nat) h).
    + lra.
    + intros i Hi. rewrite <- (Hsym i) by lia. f_equal. lia.
  - assert (E : N = (m + m)%nat) by lia.
    rewrite E at 1. rewrite rsum_split.
    rewrite (rsum_rev (fun i => h (m + i)%nat) m).
    rewrite (rsum_ext (fun i => h (m + (m - 1 - i))%nat) h).
    + lra.
    + intros i Hi. rewrite <- (Hsym i) by lia. f_equal. lia.
Qed.

Lemma theta_0 (d n : nat) : torch.theta d 0 n = 0.
Proof. unfold torch.theta. simpl (0 * n)%nat. simpl INR. unfold Rdiv. ring. Qed.

(** The angle of frequency d - k is the opposite of the angle of
    frequency k, up to full turns. *)
Lemma theta_reflect (d k n : nat) :
  (k < d)%nat ->
  cos (torch.theta d ((d - k) mod d) n) = cos (torch.theta d k n)
  /\ sin (torch.theta d ((d - k) mod d) n) = - sin (torch.theta d k n).
Proof.
  intros Hk. destruct k as [|k].
  - rewrite Nat.sub_0_r, Nat.Div0.mod_same, theta_0, sin_0. split; [reflexivity | lra].
  - rewrite Nat.mod_small by lia.
    assert (Hd0 : INR d <> 0) by (apply not_0_INR; lia).
    assert (E : torch.theta d (d - S k) n = - torch.theta d (S k) n + 2 * INR n * PI).
    { unfold torch.theta. rewrite !mult_INR, minus_INR by lia. field. exact Hd0. }
    rewrite E, cos_period, sin_period, cos_neg, sin_neg. split; reflexivity.
Qed.

Lemma rfft_row_symmetric (x : list R) : conjugate_symmetric (torch.rfft_row x).
Proof.
  unfold conjugate_symmetric. rewrite rfft_row_length. intros k Hk.
  assert (Hj : ((length x - k) mod length x < length x)%nat)
    by (apply Nat.mod_upper_bound; lia).
  rewrite !rfft_row_nth by assumption. unfold conjugate. cbn [fst snd].
  f_equal.
  - apply rsum_ext. intros n _. now rewrite (proj1 (theta_reflect _ k n Hk)).
  - rewrite Ropp_involutive, <- rsum_opp. apply rsum_ext. intros n _.
    rewrite (proj2 (theta_reflect _ k n Hk)). ring.
Qed.

Lemma theta_half (d n : nat) :
  Nat.even d = true -> (0 < d)%nat -> torch.theta d (d / 2) n = INR n * PI.
Proof.
  intros He Hd.
  pose proof (Nat.div2_odd d) as HN. rewrite Nat.div2_div in HN.
  rewrite <- Nat.negb_even, He in HN. cbn [negb Nat.b2n] in HN.
  unfold torch.theta. rewrite mult_INR.
  assert (E : INR d = 2 * INR (d / 2)).
  { rewrite HN at 1. rewrite plus_INR, mult_INR. simpl (INR 2). simpl (INR 0). lra. }
  rewrite E.
  assert (H2 : INR (d / 2) <> 0) by (apply not_0_INR; lia).
  field. exact H2.
Qed.

(** On a conjugate-symmetric spectrum the transform that reads half of
    the frequencies is the inverse transform over all of them. *)
Lemma irfft_row_onesided_symmetric (p : list torch.re_im) :
  conjugate_symmetric p -> torch.irfft_row_onesided p = torch.irfft_row p.
Proof.
  intros Hsym. unfold torch.irfft_row_onesided, torch.irfft_row.
  unfold conjugate_symmetric in Hsym. cbv zeta in Hsym |- *.
  remember (length p) as d eqn:Ed. clear Ed. apply map_ext_in. intros n Hn. apply in_seq in Hn.
  assert (Hd : (0 < d)%nat) by lia.
  f_equal.
  set (g := fun k => fst (nth k p (0, 0)) * cos (torch.theta d k n)
                     - snd (nth k p (0, 0)) * sin (torch.theta d k n)).
  change (fst (nth 0 p (0, 0)) + 2 * rsum (fun i => g (S i)) ((d - 1) / 2)
          + (if Nat.even d
             then fst (nth (d / 2) p (0, 0)) * cos (torch.theta d (d / 2) n) else 0)
          = rsum g d).
  destruct d as [|N]; [lia|].
  rewrite rsum_shift.
  rewrite (rsum_palindrome (fun i => g (S i)) N).
  - replace (S N - 1)%nat with N by lia.
    assert (G0 : g 0%nat = fst (nth 0 p (0, 0))).
    { unfold g. rewrite theta_0, cos_0, sin_0. ring. }
    rewrite G0. rewrite Nat.even_succ.
    destruct (Nat.odd N) eqn:Ho; [|lra].
    assert (Hhalf : (S N / 2 = S (N / 2))%nat).
    { pose proof (Nat.div2_odd N) as HN. rewrite Nat.div2_div, Ho in HN. cbn [Nat.b2n] in HN.
      symmetry. apply (Nat.div_unique (S N) 2 (S (N / 2)) 0); lia. }
    rewrite Hhalf. unfold g. rewrite <- Hhalf.
    rewrite (theta_half (S N) n) by first [rewrite Nat.even_succ; exact Ho | lia].
    rewrite (proj2 (cos_sin_nPI n)). lra.
  - intros i Hi. unfold g.
    assert (Hk : (S i < S N)%nat) by lia.
    specialize (Hsym (S i) Hk). rewrite Nat.mod_small in Hsym by lia.
    replace (S (N - 1 - i)) with (S N - S i)%nat by lia.
    rewrite Hsym. unfold conjugate. cbn [fst snd].
    destruct (theta_reflect (S N) (S i) n Hk) as [Hc Hs].
    rewrite Nat.mod_small in Hc, Hs by lia. rewrite Hc, Hs. ring.
Qed.

(** X11: the two transforms the forward passes call are inverse to each
    other: the inverse transform of the transform of a row is the row, for
    a row of any length.  This holds for the inverse transform over all
    frequencies and for the one the library applies, which reads half of
    the spectrum: the transform of a real row is conjugate symmetric. *)
Theorem irfft_rfft_round_trip (x : list R) :
  torch.irfft_row (torch.rfft_row x) = x
  /\ torch.irfft_row_onesided (torch.rfft_row x) = x.
Proof.
  split; [apply irfft_row_rfft_row|].
  rewrite irfft_row_onesided_symmetric by apply rfft_row_symmetric.
  apply irfft_row_rfft_row.
Qed.

(** ** Rows of one or two entries *)

Lemma theta1 (k n : nat) : torch.theta 1 k n = INR (2 * (k * n)) * PI.
Proof. unfold torch.theta. rewrite (mult_INR 2). simpl (INR 1). simpl (INR 2). field. Qed.

Lemma theta2 (k n : nat) : torch.theta 2 k n = INR (k * n) * PI.
Proof. unfold torch.theta. simpl (INR 2). field. Qed.

Lemma cos_theta1 (k n : nat) : cos (torch.theta 1 k n) = 1.
Proof.
  rewrite theta1. rewrite (proj1 (cos_sin_nPI _)), pow_1_even. reflexivity.
Qed.

Lemma sin_theta1 (k n : nat) : sin (torch.theta 1 k n) = 0.
Proof. rewrite theta1. apply cos_sin_nPI. Qed.

Lemma cos_theta2 (k n : nat) : cos (torch.theta 2 k n) = (-1) ^ (k * n).
Proof. rewrite theta2. apply cos_sin_nPI. Qed.

Lemma sin_theta2 (k n : nat) : sin (torch.theta 2 k n) = 0.
Proof. rewrite theta2. apply cos_sin_nPI. Qed.

(** X12: for rows of at most two entries the composite vector of the
    forward passes is the circular correlation (every transform is real
    there), so the plane-wise product only shows from dimension three on.
    The inverse transform over all frequencies and the one that reads half
    of the spectrum give the same vector. *)
Theorem composite_is_correlation_up_to_2 (a b : list R) :
  length a = length b -> (length a <= 2)%nat ->
  torch.irfft_row (composite_spectrum a b) = circular_correlation a b
  /\ torch.irfft_row_onesided (composite_spectrum a b) = circular_correlation a b.
Proof.
  intros Hlen Hle.
  destruct a as [|a0 [|a1 [|a2 a]]]; destruct b as [|b0 [|b1 [|b2 b]]];
    simpl in Hlen, Hle; try discriminate; try lia.
  - split; reflexivity.
  - split;
      cbv [composite_spectrum circular_correlation torch.irfft_row
           torch.irfft_row_onesided torch.rfft_row
           torch.mul_row torch.neg_imag torch.mul_re_im map2 map seq length nth rsum
           fst snd Nat.even Nat.sub Nat.div Nat.divmod];
      rewrite ?cos_theta1, ?sin_theta1;
      cbn [Nat.add Nat.modulo Nat.divmod fst snd Nat.sub nth]; simpl INR;
      entrywise; field.
  - split;
      cbv [composite_spectrum circular_correlation torch.irfft_row
           torch.irfft_row_onesided torch.rfft_row
           torch.mul_row torch.neg_imag torch.mul_re_im map2 map seq length nth rsum
           fst snd Nat.even Nat.sub Nat.div Nat.divmod];
      rewrite ?cos_theta2, ?sin_theta2;
      cbn [Nat.mul Nat.add Nat.modulo Nat.divmod fst snd Nat.sub nth pow]; simpl INR;
      entrywise; field.
Qed.

Lemma composite_is_correlation_up_to_2_witness :
  torch.irfft_row (composite_spectrum [1; 2] [3; 4]) = circular_correlation [1; 2] [3; 4]
  /\ torch.irfft_row_onesided (composite_spectrum [1; 2] [3; 4])
     = circular_correlation [1; 2] [3; 4].
Proof.
  apply (composite_is_correlation_up_to_2 [1; 2] [3; 4]).
  - reflexivity.
  - simpl. lia.
Defined.

(** ** A spectrum that is not conjugate symmetric *)

Lemma composite_spectrum_e1_e1 :
  composite_spectrum [0; 1; 0; 0] [0; 1; 0; 0] = [(1, 0); (0, -1); (1, 0); (0, -1)].
Proof.
  unfold composite_spectrum. rewrite rfft_e1.
  cbv [torch.mul_row map2 map torch.neg_imag torch.mul_re_im fst snd].
  entrywise; lra.
Qed.

Lemma irfft_onesided_composite_e1_e1 :
  torch.irfft_row_onesided (composite_spectrum [0; 1; 0; 0] [0; 1; 0; 0])
  = [1 / 2; 1 / 2; 1 / 2; - (1 / 2)].
Proof.
  rewrite composite_spectrum_e1_e1.
  cbv [torch.irfft_row_onesided map seq length nth rsum fst snd Nat.even Nat.sub
       Nat.div Nat.divmod].
  rewrite ?cos_theta4, ?sin_theta4.
  cbn [Nat.mul Nat.add Nat.modulo Nat.divmod fst snd Nat.sub quarter_cos quarter_sin].
  simpl INR. entrywise; lra.
Qed.

Lemma irfft_composite_e1_e1 :
  torch.irfft_row (composite_spectrum [0; 1; 0; 0] [0; 1; 0; 0]) = [1 / 2; 0; 1 / 2; 0].
Proof.
  rewrite composite_spectrum_e1_e1. dft4. simpl INR. entrywise; lra.
Qed.

(** X13: at the triple (1, 0, 1) of the model [unit_rows] (head and tail
    row (0, 1, 0, 0), relation row (0, 1, 0, 0)) the product of the two
    transforms is not conjugate symmetric.  The inverse transform reads
    the first half of that spectrum, the composite vector is
    (1/2, 1/2, 1/2, -1/2) and [forward_owa] returns the score 1/2; the
    inverse transform over all frequencies would give (1/2, 0, 1/2, 0). *)
Theorem forward_owa_reads_half_spectrum :
  forward_owa unit_rows [(1, 0, 1)%Z] = ok [[1 / 2]]
  /\ torch.irfft_row_onesided (composite_spectrum [0; 1; 0; 0] [0; 1; 0; 0])
     = [1 / 2; 1 / 2; 1 / 2; - (1 / 2)]
  /\ torch.irfft_row (composite_spectrum [0; 1; 0; 0] [0; 1; 0; 0]) = [1 / 2; 0; 1 / 2; 0]
  /\ ~ conjugate_symmetric (composite_spectrum [0; 1; 0; 0] [0; 1; 0; 0]).
Proof.
  split; [|split; [apply irfft_onesided_composite_e1_e1|
                   split; [apply irfft_composite_e1_e1|]]].
  - rewrite (forward_owa_rows unit_rows wf_unit_rows).
    + change (ok [[score_row [0; 1; 0; 0] [0; 1; 0; 0] [0; 1; 0; 0]]] = ok [[1 / 2]]).
      unfold score_row. rewrite irfft_onesided_composite_e1_e1.
      cbv [map2 torch.sum fold_right].
      unfold ok. apply f_equal. entrywise. lra.
    + discriminate.
    + constructor; [|constructor]. unfold valid_triple, valid_index; simpl. lia.
  - rewrite composite_spectrum_e1_e1. intros H. specialize (H 1%nat).
    cbn [length Nat.sub Nat.modulo Nat.divmod fst snd nth] in H.
    unfold conjugate in H. cbn [fst snd] in H.
    assert (H1 : (1 < 4)%nat) by lia. specialize (H H1).
    injection H as H. lra.
Qed.

(** The model [unit_rows_200] is the one a construction with the two
    tables of dimension four and the default [embedding_dim] returns. *)
Lemma unit_rows_200_constructed (g : Generator) :
  fst (__init__ {| num_entities := 2; num_relations := 1 |}
         (Some (entity_embeddings unit_rows)) (Some (relation_embeddings unit_rows))
         200 None g)
  = unit_rows_200.
Proof. reflexivity. Qed.

(** The circular correlation itself is not symmetric: exchanging the two
    unit rows changes the score of the specification from 1 to 0. *)
Lemma spectral_score_not_symmetric :
  spectral_score [1; 0; 0; 0] [0; 1; 0; 0] [0; 1; 0; 0] = 1
  /\ spectral_score [0; 1; 0; 0] [0; 1; 0; 0] [1; 0; 0; 0] = 0.
Proof.
  unfold spectral_score.
  rewrite !spectral_correlation_correct by reflexivity.
  cbv [circular_correlation map seq length rsum].
  cbn [Nat.add Nat.modulo Nat.divmod fst snd Nat.sub nth].
  cbv [map2 torch.sum fold_right]. split; lra.
Qed.
